(** * Triangulum: the message-dispatch runtime of [src/index.ts] and
    [src/registry.ts], embedded as state-passing functions.

    Conventions of the embedding.
    - Objects live in a store and are named by addresses, because the code
      keeps references: the outbound queue holds the very objects the caller
      passed to [send], and [send] writes their [channel] field in place.
    - A property read [x.channel] looks at the object's own property first and
      then walks the prototype chain.  Class prototypes are kept in a store of
      their own ([protos]); message objects point into it.
    - The field declaration [channel: string | undefined] of [Sendable] has no
      initialiser and creates no own property, which is what lets the value
      installed on the prototype by [MakeSendable] show through.
    - A [throw] is the [Throw] result; state changes made before it persist.
    - What the outside world observes (calls of [transmit], of a promise's
      [resolve], of a listener callback, of [console.warn]) is appended to a
      trace of events.
    - The abstract methods [encode], [decode], [finalize] and [transmit], the
      awaiters' predicates and the listeners' callbacks are parameters.  All
      of them may throw; none calls back into the manager.
    - The intermediate value [decode] returns is an object.  The text of a
      warning is built by a template literal, which converts the interpolated
      values to strings before [console.warn] is called; converting an object
      runs its [toString] or [valueOf] and can throw, so the conversions of
      the intermediate value and of the raw data are parameters too.  Thrown
      values are [Error] objects, whose conversion cannot fail. *)

From stdpp Require Import gmap strings list fin_maps.

Abbreviation addr := nat (only parsing).

(** [string | undefined], the type of a [channel] field; also the keys of the
    two [Map]s, which at run time accept [undefined] like any other key. *)
Abbreviation chan := (option string) (only parsing).

(** A value of type [any], as far as [typeof] can tell them apart. *)
Inductive Val : Type :=
  | VUndefined
  | VNull
  | VBool (b : bool)
  | VNum (z : Z)
  | VStr (s : string)
  | VRef (a : addr).

Definition typeof_is_string (v : Val) : bool :=
  match v with VStr _ => true | _ => false end.

Inductive Err : Type :=
  | ErrNotRegistered            (* "The class being sent isn't registered ..." *)
  | ErrEncode (cause : Err)     (* "The data being sent couldn't be encoded: ${e}" *)
  | ErrTypeCheck                (* "Type checking failed" *)
  | ErrTypeError                (* reading a property of null *)
  | ErrUser (msg : string).     (* anything thrown by user code *)

Inductive Res (A : Type) : Type :=
  | Ok (a : A)
  | Throw (e : Err).
Arguments Ok {A} a.
Arguments Throw {A} e.

Inductive Warning : Type :=
  | WarnDecoderThrew (e : Err)
  | WarnChannelNotString
  | WarnNotInRegistry (channel : string)
  | WarnFinalizeFailed (e : Err).

Section Triangulum.

(** The own fields of a message other than [channel]. *)
Variable Payload : Type.
(** [IOType], the validator functions and the [CustomData] tuples. *)
Variable IOType : Type.
Variable Validator : Type.
Variable CustomData : Type.

(** ** Objects and prototypes *)

(** [p_channel = None]: no own property [channel];
    [Some None]: own property holding [undefined]. *)
Record ProtoObj : Type := {
  p_channel : option chan;
  p_parent : option addr
}.

Record Obj : Type := {
  o_channel : option chan;
  o_proto : option addr;
  o_fields : Payload
}.

Record Mem : Type := {
  protos : gmap addr ProtoObj;
  objs : gmap addr Obj
}.

(** [p.channel] for a prototype object [p]: the chain is finite and acyclic in
    JavaScript, so [S (size P)] steps reach its end. *)
Fixpoint chain_channel (fuel : nat) (P : gmap addr ProtoObj) (p : addr) : chan :=
  match fuel with
  | O => None
  | S fuel' =>
      match P !! p with
      | None => None
      | Some po =>
          match p_channel po with
          | Some v => v
          | None =>
              match p_parent po with
              | Some q => chain_channel fuel' P q
              | None => None
              end
          end
      end
  end.

Definition proto_channel (P : gmap addr ProtoObj) (p : addr) : chan :=
  chain_channel (S (size P)) P p.

(** [data.channel] *)
Definition get_channel (m : Mem) (data : addr) : chan :=
  match objs m !! data with
  | None => None
  | Some o =>
      match o_channel o with
      | Some v => v
      | None =>
          match o_proto o with
          | Some p => proto_channel (protos m) p
          | None => None
          end
      end
  end.

(** A class, as far as the library uses one: its [prototype] property.
    [Sendable.channel] is [this.prototype.channel]. *)
Record Class : Type := { cls_prototype : addr }.

Definition Sendable_channel (P : gmap addr ProtoObj) (c : Class) : chan :=
  proto_channel P (cls_prototype c).

(** [new C(...)] for a class whose constructor only fills its own fields. *)
Definition construct (c : Class) (fields : Payload) : Obj :=
  {| o_channel := None; o_proto := Some (cls_prototype c); o_fields := fields |}.

(** ** The manager's state *)

Record Awaiter : Type := {
  channel : chan;
  predicate : Mem -> addr -> Res bool;
  resolve : nat
}.

Inductive Event : Type :=
  | EvTransmit (io : IOType)
  | EvResolve (resolver : nat) (data : addr)
  | EvCallback (callback : nat) (data : addr)
  | EvWarn (w : Warning).

(** The fields of [ListenerManagerImplementations] and
    [AbstractListenerManager].  A [Set] of callbacks is the list of their
    identities in insertion order, without repetition. *)
Record Manager : Type := {
  listeners : gmap chan (list nat);
  awaiters : list Awaiter;
  queue : list addr;
  isReady : bool
}.

Record World : Type := {
  mem : Mem;
  entries : gmap chan (Class * Validator * CustomData);  (* Registry.entries *)
  mgr : Manager
}.

Definition M (A : Type) : Type := World -> Res A * World * list Event.

Definition set_mgr (w : World) (g : Manager) : World :=
  {| mem := mem w; entries := entries w; mgr := g |}.

Definition set_mem (w : World) (m : Mem) : World :=
  {| mem := m; entries := entries w; mgr := mgr w |}.

Definition set_entries (w : World) (r : gmap chan (Class * Validator * CustomData)) : World :=
  {| mem := mem w; entries := r; mgr := mgr w |}.

Definition with_listeners (g : Manager) (l : gmap chan (list nat)) : Manager :=
  {| listeners := l; awaiters := awaiters g; queue := queue g; isReady := isReady g |}.

Definition with_awaiters (g : Manager) (a : list Awaiter) : Manager :=
  {| listeners := listeners g; awaiters := a; queue := queue g; isReady := isReady g |}.

Definition with_queue (g : Manager) (q : list addr) : Manager :=
  {| listeners := listeners g; awaiters := awaiters g; queue := q; isReady := isReady g |}.

Definition with_isReady (g : Manager) (b : bool) : Manager :=
  {| listeners := listeners g; awaiters := awaiters g; queue := queue g; isReady := b |}.

(** ** User code *)

Variable encode : gmap addr ProtoObj -> Obj -> Res IOType.
Variable decode : Mem -> IOType -> Res (Val * addr) * Mem.
Variable finalize : Mem -> addr -> Validator -> CustomData -> Res addr * Mem.
(** [transmit(encoded)]: [Some e] if it throws. *)
Variable transmit : IOType -> option Err.
(** The string conversions [`${intermediate}`] and [`${data}`]: [Some e] if
    the conversion throws. *)
Variable intermediate_to_string : Mem -> addr -> option Err.
Variable raw_to_string : IOType -> option Err.
(** What the callback with a given identity does: [Some e] if it throws. *)
Variable callback_run : nat -> Mem -> addr -> option Err.

(** ** Dispatch engine: [ListenerManagerImplementations] *)

Inductive Scan : Type :=
  | ScanNone
  | ScanHit (i : nat) (a : Awaiter)
  | ScanThrow (e : Err).

(** The [for] loop of [notifyListeners], from index [i] on. *)
Fixpoint scan_awaiters (m : Mem) (data : addr) (aws : list Awaiter) (i : nat) : Scan :=
  match aws with
  | [] => ScanNone
  | awaiter :: rest =>
      if decide (channel awaiter = get_channel m data) then
        match predicate awaiter m data with
        | Ok true => ScanHit i awaiter
        | Ok false => scan_awaiters m data rest (S i)
        | Throw e => ScanThrow e
        end
      else scan_awaiters m data rest (S i)
  end.

(** [set.forEach(callback => callback(data))] *)
Fixpoint run_callbacks (m : Mem) (data : addr) (cbs : list nat) : Res unit * list Event :=
  match cbs with
  | [] => (Ok tt, [])
  | cb :: rest =>
      match callback_run cb m data with
      | Some e => (Throw e, [EvCallback cb data])
      | None =>
          let '(r, evs) := run_callbacks m data rest in
          (r, EvCallback cb data :: evs)
      end
  end.

Definition notifyListeners (data : addr) : M unit := fun w =>
  match scan_awaiters (mem w) data (awaiters (mgr w)) 0 with
  | ScanHit i awaiter =>
      (Ok tt,
       set_mgr w (with_awaiters (mgr w) (delete i (awaiters (mgr w)))),
       [EvResolve (resolve awaiter) data])
  | ScanThrow e => (Throw e, w, [])
  | ScanNone =>
      match listeners (mgr w) !! get_channel (mem w) data with
      | Some cbs => let '(r, evs) := run_callbacks (mem w) data cbs in (r, w, evs)
      | None => (Ok tt, w, [])
      end
  end.

(** [set.add(callback)] *)
Definition set_add (cb : nat) (s : list nat) : list nat :=
  if decide (cb ∈ s) then s else s ++ [cb].

(** [set.delete(callback)] *)
Definition set_delete (cb : nat) (s : list nat) : list nat :=
  filter (λ x, x ≠ cb) s.

Definition listen (channelClass : Class) (callback : nat) : M unit := fun w =>
  let channel := Sendable_channel (protos (mem w)) channelClass in
  let ls :=
    match listeners (mgr w) !! channel with
    | None => <[channel := []]> (listeners (mgr w))
    | Some _ => listeners (mgr w)
    end in
  (Ok tt, set_mgr w (with_listeners (mgr w) (alter (set_add callback) channel ls)), []).

Definition stopListening (channelClass : Class) (callback : nat) : M unit := fun w =>
  let channel := Sendable_channel (protos (mem w)) channelClass in
  match listeners (mgr w) !! channel with
  | None => (Ok tt, w, [])
  | Some _ =>
      (Ok tt,
       set_mgr w (with_listeners (mgr w)
                    (alter (set_delete callback) channel (listeners (mgr w)))), [])
  end.

(** The promise's executor runs at once; [resolver] names the promise. *)
Definition awaitMessage (channelClass : Class) (pred : Mem -> addr -> Res bool)
    (resolver : nat) : M unit := fun w =>
  let awaiter :=
    {| channel := Sendable_channel (protos (mem w)) channelClass;
       predicate := pred;
       resolve := resolver |} in
  (Ok tt, set_mgr w (with_awaiters (mgr w) (awaiters (mgr w) ++ [awaiter])), []).

(** ** Transport pipeline: [AbstractListenerManager] *)

(** [Object.setPrototypeOf(o, proto)] *)
Definition setPrototypeOf (m : Mem) (o : addr) (proto : addr) : Mem :=
  {| protos := protos m;
     objs := alter (λ ob, {| o_channel := o_channel ob;
                              o_proto := Some proto;
                              o_fields := o_fields ob |}) o (objs m) |}.

(** The first of a series of conversions that throws, if any. *)
Fixpoint first_throw (conversions : list (option Err)) : option Err :=
  match conversions with
  | [] => None
  | Some e :: _ => Some e
  | None :: rest => first_throw rest
  end.

(** [console.warn(`...`)] with the conversions the template performs, in
    order: the first one that throws ends the call before anything is logged. *)
Definition warn (conversions : list (option Err)) (wn : Warning) : M unit := fun w =>
  match first_throw conversions with
  | Some e => (Throw e, w, [])
  | None => (Ok tt, w, [EvWarn wn])
  end.

(** The match on [VStr] is the test [typeof channel !== "string"]. *)
Definition onData (data : IOType) : M unit := fun w =>
  match decode (mem w) data with
  | (Throw e, m1) =>
      warn [raw_to_string data] (WarnDecoderThrew e) (set_mem w m1)
  | (Ok (channel, intermediate), m1) =>
      match channel with
      | VStr c =>
          match entries w !! Some c with
          | None =>
              warn [intermediate_to_string m1 intermediate; raw_to_string data]
                (WarnNotInRegistry c) (set_mem w m1)
          | Some (classType, strats, customData) =>
              match finalize m1 intermediate strats customData with
              | (Throw e, m2) =>
                  warn [intermediate_to_string m2 intermediate; raw_to_string data]
                    (WarnFinalizeFailed e) (set_mem w m2)
              | (Ok decoded, m2) =>
                  let m3 := setPrototypeOf m2 intermediate (cls_prototype classType) in
                  notifyListeners decoded (set_mem w m3)
              end
          end
      | _ =>
          warn [intermediate_to_string m1 intermediate; raw_to_string data]
            WarnChannelNotString (set_mem w m1)
      end
  end.

(** [data.channel = Object.getPrototypeOf(data).channel]: the object after
    the assignment.  A null prototype makes the read throw a [TypeError]. *)
Definition stamp (P : gmap addr ProtoObj) (o : Obj) : Res Obj :=
  match o_proto o with
  | None => Throw ErrTypeError
  | Some p =>
      Ok {| o_channel := Some (proto_channel P p);
            o_proto := o_proto o;
            o_fields := o_fields o |}
  end.

(** An address always names an object when the code runs; one that does not
    is treated like an object without properties or prototype. *)
Definition send (data : addr) : M unit := fun w =>
  match entries w !! get_channel (mem w) data with
  | None => (Throw ErrNotRegistered, w, [])
  | Some _ =>
      if negb (isReady (mgr w)) then
        (Ok tt, set_mgr w (with_queue (mgr w) (queue (mgr w) ++ [data])), [])
      else
        match objs (mem w) !! data with
        | None => (Throw ErrTypeError, w, [])
        | Some o =>
            match stamp (protos (mem w)) o with
            | Throw e => (Throw e, w, [])
            | Ok o' =>
                let w' := set_mem w {| protos := protos (mem w);
                                       objs := <[data := o']> (objs (mem w)) |} in
                match encode (protos (mem w)) o' with
                | Throw e => (Throw (ErrEncode e), w', [])
                | Ok encoded =>
                    match transmit encoded with
                    | Some e => (Throw e, w', [EvTransmit encoded])
                    | None => (Ok tt, w', [EvTransmit encoded])
                    end
                end
            end
        end
  end.

(** [this.queue.forEach(v => this.send(v))] *)
Fixpoint forEach_send (q : list addr) : M unit := fun w =>
  match q with
  | [] => (Ok tt, w, [])
  | v :: rest =>
      match send v w with
      | (Ok _, w1, evs1) =>
          let '(r, w2, evs2) := forEach_send rest w1 in (r, w2, evs1 ++ evs2)
      | (Throw e, w1, evs1) => (Throw e, w1, evs1)
      end
  end.

Definition ready : M unit := fun w =>
  let w1 := set_mgr w (with_isReady (mgr w) true) in
  match forEach_send (queue (mgr w1)) w1 with
  | (Ok _, w2, evs) => (Ok tt, set_mgr w2 (with_queue (mgr w2) []), evs)
  | (Throw e, w2, evs) => (Throw e, w2, evs)
  end.

(** [JSONListenerManager.finalize] *)
Definition JSON_finalize (m : Mem) (data : addr)
    (typeCheckingLayers : Mem -> addr -> bool) : Res addr * Mem :=
  if negb (typeCheckingLayers m data) then (Throw ErrTypeCheck, m) else (Ok data, m).

(** ** Registration: [Registry.register] and [MakeSendable] *)

Definition register (classToRegister : Class) (strats : Validator)
    (customData : CustomData) : M unit := fun w =>
  let channel := Sendable_channel (protos (mem w)) classToRegister in
  (Ok tt, set_entries w (<[channel := (classToRegister, strats, customData)]> (entries w)), []).

(** [constructor.prototype.channel = channel] *)
Definition set_proto_channel (m : Mem) (p : addr) (c : string) : Mem :=
  {| protos := alter (λ po, {| p_channel := Some (Some c); p_parent := p_parent po |})
                 p (protos m);
     objs := objs m |}.

Definition MakeSendable (channel : string) (strategy : Validator)
    (customData : CustomData) (constructor : Class) : M unit := fun w =>
  register constructor strategy customData
    (set_mem w (set_proto_channel (mem w) (cls_prototype constructor) channel)).

End Triangulum.

Arguments o_channel {Payload} _.
Arguments o_proto {Payload} _.
Arguments o_fields {Payload} _.
Arguments protos {Payload} _.
Arguments objs {Payload} _.
Arguments get_channel {Payload} m data.
Arguments construct {Payload} c fields.
Arguments channel {Payload} _.
Arguments predicate {Payload} _.
Arguments resolve {Payload} _.
Arguments EvTransmit {IOType} io.
Arguments EvResolve {IOType} resolver data.
Arguments EvCallback {IOType} callback data.
Arguments EvWarn {IOType} w.
Arguments listeners {Payload} _.
Arguments awaiters {Payload} _.
Arguments queue {Payload} _.
Arguments isReady {Payload} _.
Arguments mem {Payload Validator CustomData} _.
Arguments entries {Payload Validator CustomData} _.
Arguments mgr {Payload Validator CustomData} _.
Arguments set_mgr {Payload Validator CustomData} w g.
Arguments set_mem {Payload Validator CustomData} w m.
Arguments set_entries {Payload Validator CustomData} w r.
Arguments with_listeners {Payload} g l.
Arguments with_awaiters {Payload} g a.
Arguments with_queue {Payload} g q.
Arguments with_isReady {Payload} g b.
Arguments ScanNone {Payload}.
Arguments ScanHit {Payload} i a.
Arguments ScanThrow {Payload} e.
Arguments scan_awaiters {Payload} m data aws i.
Arguments run_callbacks {Payload IOType} callback_run m data cbs.
Arguments notifyListeners {Payload IOType Validator CustomData} callback_run data w.
Arguments listen {Payload IOType Validator CustomData} channelClass callback w.
Arguments stopListening {Payload IOType Validator CustomData} channelClass callback w.
Arguments awaitMessage {Payload IOType Validator CustomData} channelClass pred resolver w.
Arguments setPrototypeOf {Payload} m o proto.
Arguments warn {Payload IOType Validator CustomData} conversions wn w.
Arguments onData {Payload IOType Validator CustomData} decode finalize
  intermediate_to_string raw_to_string callback_run data w.
Arguments stamp {Payload} P o.
Arguments send {Payload IOType Validator CustomData} encode transmit data w.
Arguments forEach_send {Payload IOType Validator CustomData} encode transmit q w.
Arguments ready {Payload IOType Validator CustomData} encode transmit w.
Arguments JSON_finalize {Payload} m data typeCheckingLayers.
Arguments register {Payload IOType Validator CustomData} classToRegister strats customData w.
Arguments set_proto_channel {Payload} m p c.
Arguments MakeSendable {Payload IOType Validator CustomData} channel strategy customData constructor w.

(** * [JSONListenerManager] *)

Section JSONManager.

Context {Payload : Type}.

(** [JSON.parse]: user data in, a new object out, or a [SyntaxError].  The
    parsed value is taken to be an object whose [channel] member, if it has
    one, is a string. *)
Variable parse : Mem Payload -> string -> Res addr * Mem Payload.
(** [JSON.stringify] *)
Variable stringify : gmap addr ProtoObj -> Obj Payload -> Res string.

(** [decoded.channel] as a value of type [any]. *)
Definition channel_value (m : Mem Payload) (decoded : addr) : Val :=
  match get_channel m decoded with
  | Some c => VStr c
  | None => VUndefined
  end.

Definition JSONListenerManager_encode (P : gmap addr ProtoObj) (data : Obj Payload)
    : Res string :=
  stringify P data.

Definition JSONListenerManager_decode (m : Mem Payload) (data : string)
    : Res (Val * addr) * Mem Payload :=
  match parse m data with
  | (Ok decoded, m') => (Ok (channel_value m' decoded, decoded), m')
  | (Throw e, m') => (Throw e, m')
  end.

(** The registry of a JSON manager has no custom data: [CustomData = []]. *)
Definition JSONListenerManager_finalize (m : Mem Payload) (data : addr)
    (typeCheckingLayers : Mem Payload -> addr -> bool) (_ : unit)
    : Res addr * Mem Payload :=
  JSON_finalize m data typeCheckingLayers.

End JSONManager.

(** * [InternalListenerManager] *)

Section InternalManager.

Context {Payload Validator : Type}.

(** [transmit(data)], handed the message itself: [Some e] if it throws. *)
Variable transmit : Mem Payload -> addr -> option Err.
(** The string conversion [`${data}`]: [Some e] if it throws. *)
Variable data_to_string : Mem Payload -> addr -> option Err.
Variable callback_run : nat -> Mem Payload -> addr -> option Err.

(** What is transmitted is the message, so [IOType] is the type of
    references; the registry has no custom data. *)
Abbreviation IM := (M Payload addr Validator unit).

(** [`${channel}`] for a value that is a string or [undefined]. *)
Definition channel_text (c : chan) : string := default "undefined" c.

Definition Internal_onData (data : addr) : IM unit := fun w =>
  let channel := get_channel (mem w) data in
  match entries w !! channel with
  | None =>
      warn [data_to_string (mem w) data] (WarnNotInRegistry (channel_text channel)) w
  | Some _ => notifyListeners callback_run data w
  end.

Definition Internal_send (data : addr) : IM unit := fun w =>
  match entries w !! get_channel (mem w) data with
  | None => (Throw ErrNotRegistered, w, [])
  | Some _ =>
      if negb (isReady (mgr w)) then
        (Ok tt, set_mgr w (with_queue (mgr w) (queue (mgr w) ++ [data])), [])
      else
        match objs (mem w) !! data with
        | None => (Throw ErrTypeError, w, [])
        | Some o =>
            match stamp (protos (mem w)) o with
            | Throw e => (Throw e, w, [])
            | Ok o' =>
                let w' := set_mem w {| protos := protos (mem w);
                                       objs := <[data := o']> (objs (mem w)) |} in
                match transmit (mem w') data with
                | Some e => (Throw e, w', [EvTransmit data])
                | None => (Ok tt, w', [EvTransmit data])
                end
            end
        end
  end.

Fixpoint Internal_forEach_send (q : list addr) : IM unit := fun w =>
  match q with
  | [] => (Ok tt, w, [])
  | v :: rest =>
      match Internal_send v w with
      | (Ok _, w1, evs1) =>
          let '(r, w2, evs2) := Internal_forEach_send rest w1 in (r, w2, evs1 ++ evs2)
      | (Throw e, w1, evs1) => (Throw e, w1, evs1)
      end
  end.

Definition Internal_ready : IM unit := fun w =>
  let w1 := set_mgr w (with_isReady (mgr w) true) in
  match Internal_forEach_send (queue (mgr w1)) w1 with
  | (Ok _, w2, evs) => (Ok tt, set_mgr w2 (with_queue (mgr w2) []), evs)
  | (Throw e, w2, evs) => (Throw e, w2, evs)
  end.

End InternalManager.

(** [makeCustomSendableDecorator(registry)]: [MakeSendable] with the registry
    fixed, the registry being the one of the world here. *)
Definition makeCustomSendableDecorator {Payload IOType Validator CustomData : Type}
    (channel : string) (strategy : Validator) (data : CustomData) (constructor : Class)
    : M Payload IOType Validator CustomData unit :=
  MakeSendable channel strategy data constructor.

(** * A manager in use: sequences of calls *)

Section API.

Context {Payload IOType Validator CustomData : Type}.
Variable encode : gmap addr ProtoObj -> Obj Payload -> Res IOType.
Variable decode : Mem Payload -> IOType -> Res (Val * addr) * Mem Payload.
Variable finalize :
  Mem Payload -> addr -> Validator -> CustomData -> Res addr * Mem Payload.
Variable transmit : IOType -> option Err.
Variable intermediate_to_string : Mem Payload -> addr -> option Err.
Variable raw_to_string : IOType -> option Err.
Variable callback_run : nat -> Mem Payload -> addr -> option Err.

(** One call on an [AbstractListenerManager], by the application ([listen],
    [stopListening], [awaitMessage], [send]) or by the transport ([onData],
    [ready]). *)
Inductive Call : Type :=
  | CallListen (channelClass : Class) (callback : nat)
  | CallStopListening (channelClass : Class) (callback : nat)
  | CallAwaitMessage (channelClass : Class) (pred : Mem Payload -> addr -> Res bool)
      (resolver : nat)
  | CallSend (data : addr)
  | CallOnData (raw : IOType)
  | CallReady.

Definition call (c : Call) : M Payload IOType Validator CustomData unit :=
  match c with
  | CallListen channelClass callback => listen channelClass callback
  | CallStopListening channelClass callback => stopListening channelClass callback
  | CallAwaitMessage channelClass pred resolver => awaitMessage channelClass pred resolver
  | CallSend data => send encode transmit data
  | CallOnData raw =>
      onData decode finalize intermediate_to_string raw_to_string callback_run raw
  | CallReady => ready encode transmit
  end.

(** A sequence of calls, each caller going on after an exception: the final
    state and everything observed on the way. *)
Fixpoint calls (cs : list Call) (w : World Payload Validator CustomData)
    : World Payload Validator CustomData * list (Event IOType) :=
  match cs with
  | [] => (w, [])
  | c :: rest =>
      let '(_, w1, evs1) := call c w in
      let '(w2, evs2) := calls rest w1 in
      (w2, evs1 ++ evs2)
  end.

End API.

(** * Vocabulary of the statements *)

Section Vocabulary.

Context {Payload IOType Validator CustomData : Type}.
Variable encode : gmap addr ProtoObj -> Obj Payload -> Res IOType.
Variable decode : Mem Payload -> IOType -> Res (Val * addr) * Mem Payload.
Variable finalize :
  Mem Payload -> addr -> Validator -> CustomData -> Res addr * Mem Payload.
Variable transmit : IOType -> option Err.
Variable intermediate_to_string : Mem Payload -> addr -> option Err.
Variable raw_to_string : IOType -> option Err.

Implicit Types (w : World Payload Validator CustomData) (data : addr).

(** The awaiter is passed over by the loop: its channel differs from the
    message's, or its predicate returns false. *)
Definition passes_over (m : Mem Payload) data (a : Awaiter Payload) : Prop :=
  channel a ≠ get_channel m data ∨ predicate a m data = Ok false.

(** The awaiter takes the message. *)
Definition takes (m : Mem Payload) data (a : Awaiter Payload) : Prop :=
  channel a = get_channel m data ∧ predicate a m data = Ok true.

(** The callbacks registered under a channel, in insertion order. *)
Definition callbacks_of (g : Manager Payload) (c : chan) : list nat :=
  default [] (listeners g !! c).

(** The registry has an entry for the channel the message carries now. *)
Definition registered w data : Prop :=
  is_Some (entries w !! get_channel (mem w) data).

(** The object store after [send] has stamped [data] with [o']. *)
Definition stamped_world w data (o' : Obj Payload) : World Payload Validator CustomData :=
  set_mem w {| protos := protos (mem w); objs := <[data := o']> (objs (mem w)) |}.

(** Sent while ready, the message is transmitted as [io]: it carries a
    registered channel, its prototype's channel is registered as well,
    [encode] returns [io] on the stamped object and [transmit] accepts it. *)
Definition transmits_as w data (io : IOType) : Prop :=
  ∃ o o',
    objs (mem w) !! data = Some o
    ∧ registered w data
    ∧ stamp (protos (mem w)) o = Ok o'
    ∧ is_Some (entries w !! default None (o_channel o'))
    ∧ encode (protos (mem w)) o' = Ok io
    ∧ transmit io = None.

(** Sent while ready, the message gets as far as [encode], which throws [e]. *)
Definition encode_fails w data (e : Err) : Prop :=
  ∃ o o',
    objs (mem w) !! data = Some o
    ∧ registered w data
    ∧ stamp (protos (mem w)) o = Ok o'
    ∧ encode (protos (mem w)) o' = Throw e.

(** The four ways in which [onData] gives a message up, each with the
    warning it prepares, the string conversions the text of that warning
    needs, and the object store user code left behind. *)
Inductive drops w (raw : IOType)
    : Warning -> list (option Err) -> Mem Payload -> Prop :=
  | drop_decoder_threw e m1 :
      decode (mem w) raw = (Throw e, m1) ->
      drops w raw (WarnDecoderThrew e) [raw_to_string raw] m1
  | drop_channel_not_string v intermediate m1 :
      decode (mem w) raw = (Ok (v, intermediate), m1) ->
      typeof_is_string v = false ->
      drops w raw WarnChannelNotString
        [intermediate_to_string m1 intermediate; raw_to_string raw] m1
  | drop_not_in_registry c intermediate m1 :
      decode (mem w) raw = (Ok (VStr c, intermediate), m1) ->
      entries w !! Some c = None ->
      drops w raw (WarnNotInRegistry c)
        [intermediate_to_string m1 intermediate; raw_to_string raw] m1
  | drop_finalize_threw c intermediate m1 classType strats customData e m2 :
      decode (mem w) raw = (Ok (VStr c, intermediate), m1) ->
      entries w !! Some c = Some (classType, strats, customData) ->
      finalize m1 intermediate strats customData = (Throw e, m2) ->
      drops w raw (WarnFinalizeFailed e)
        [intermediate_to_string m2 intermediate; raw_to_string raw] m2.

(** Steps 1 to 4 of the receive path succeed: [intermediate] comes out of
    [decode], [classType] out of the registry, [decoded] out of [finalize],
    and [m2] is the object store at that point. *)
Definition receives w (raw : IOType) (intermediate : addr) (classType : Class)
    (decoded : addr) (m2 : Mem Payload) : Prop :=
  ∃ c m1 strats customData,
    decode (mem w) raw = (Ok (VStr c, intermediate), m1)
    ∧ entries w !! Some c = Some (classType, strats, customData)
    ∧ finalize m1 intermediate strats customData = (Ok decoded, m2).

(** [Object.getPrototypeOf(data)] is the prototype of the class. *)
Definition instance_of (m : Mem Payload) data (c : Class) : Prop :=
  ∃ o, objs m !! data = Some o ∧ o_proto o = Some (cls_prototype c).

End Vocabulary.

(** * A concrete manager: JSON-like codec, two message classes *)

Module Fixture.

(** Messages carry one number, [value].  [own_toString] says that the object
    has an own member named [toString] which is not a function, as the object
    parsed from [{"toString": 1}] has. *)
Record Fields : Type := { value : Z; own_toString : bool }.

Definition num (v : Z) : Fields := {| value := v; own_toString := false |}.

(** A raw text is [None] when it is not valid JSON and otherwise gives the
    [channel] and the other members it spells. *)
Definition Text : Type := option (chan * Fields).
Definition Check : Type := Mem Fields -> addr -> bool.

Definition Object_prototype : addr := 0.
Definition Ping : Class := {| cls_prototype := 1 |}.
Definition Pong : Class := {| cls_prototype := 2 |}.

Definition protos0 : gmap addr ProtoObj :=
  <[2 := {| p_channel := None; p_parent := Some Object_prototype |}]>
  (<[1 := {| p_channel := None; p_parent := Some Object_prototype |}]>
  (<[Object_prototype := {| p_channel := None; p_parent := None |}]> ∅)).

(** [JSON.stringify]: own properties only; negative values stand for the
    values it refuses. *)
Definition enc (P : gmap addr ProtoObj) (o : Obj Fields) : Res Text :=
  if (value (o_fields o) <? 0)%Z then Throw (ErrUser "not serialisable")
  else Ok (Some (default None (o_channel o), o_fields o)).

(** The transport takes whatever it is given. *)
Definition tx (encoded : Text) : option Err := None.

(** [`${intermediate}`]: an object without a callable [toString] cannot be
    converted, [Object.prototype.valueOf] returning the object itself. *)
Definition show_intermediate (m : Mem Fields) (intermediate : addr) : option Err :=
  match objs m !! intermediate with
  | Some o => if own_toString (o_fields o) then Some ErrTypeError else None
  | None => None
  end.

(** [`${data}`]: the raw data is a string already. *)
Definition show_raw (raw : Text) : option Err := None.

Definition alloc (m : Mem Fields) (o : Obj Fields) : addr * Mem Fields :=
  let a := fresh (dom (objs m)) in
  (a, {| protos := protos m; objs := <[a := o]> (objs m) |}).

(** [JSON.parse], then [decoded.channel]. *)
Definition dec (m : Mem Fields) (raw : Text) : Res (Val * addr) * Mem Fields :=
  match raw with
  | None => (Throw (ErrUser "SyntaxError"), m)
  | Some (c, v) =>
      let '(a, m') :=
        alloc m {| o_channel := match c with Some s => Some (Some s) | None => None end;
                   o_proto := Some Object_prototype;
                   o_fields := v |} in
      (Ok (match c with Some s => VStr s | None => VUndefined end, a), m')
  end.

(** [JSONListenerManager.finalize]: the checked value itself. *)
Definition fin (m : Mem Fields) (data : addr) (check : Check) (_ : unit) : Res addr * Mem Fields :=
  JSON_finalize m data check.

(** A [finalize] that converts: it checks, then builds the typed value as a
    new plain object with the same fields. *)
Definition fin_convert (m : Mem Fields) (data : addr) (check : Check) (_ : unit)
    : Res addr * Mem Fields :=
  if negb (check m data) then (Throw ErrTypeCheck, m)
  else
    match objs m !! data with
    | None => (Throw ErrTypeError, m)
    | Some o =>
        let '(a, m') :=
          alloc m {| o_channel := o_channel o;
                     o_proto := Some Object_prototype;
                     o_fields := o_fields o |} in
        (Ok a, m')
    end.

Definition any_value : Check := fun _ _ => true.
Definition value_below_100 : Check := fun m a =>
  match objs m !! a with
  | Some o => (value (o_fields o) <? 100)%Z
  | None => false
  end.

(** Callback 13 throws, every other callback returns. *)
Definition cb_run (cb : nat) (m : Mem Fields) (data : addr) : option Err :=
  if decide (cb = 13) then Some (ErrUser "listener failed") else None.

Definition value_is (v : Z) (m : Mem Fields) (data : addr) : Res bool :=
  match objs m !! data with
  | Some o => Ok (bool_decide (value (o_fields o) = v))
  | None => Ok false
  end.

Definition throwing_predicate (m : Mem Fields) (data : addr) : Res bool :=
  Throw (ErrUser "predicate failed").

Definition world0 : World Fields Check unit :=
  {| mem := {| protos := protos0; objs := ∅ |};
     entries := ∅;
     mgr := {| listeners := ∅; awaiters := []; queue := []; isReady := false |} |}.

(** Run an operation for its final state. *)
Definition after {A} (op : M Fields Text Check unit A) (w : World Fields Check unit)
    : World Fields Check unit :=
  snd (fst (op w)).

(** [@MakeSendable(registry, "ping", ...) class Ping] and the same for [Pong]. *)
Definition world_registered : World Fields Check unit :=
  after (MakeSendable "pong" value_below_100 tt Pong)
    (after (MakeSendable "ping" any_value tt Ping) world0).

(** The registered world with the given message objects in the store. *)
Definition holding (l : list (addr * Obj Fields)) : World Fields Check unit :=
  set_mem world_registered
    {| protos := protos (mem world_registered); objs := list_to_map l |}.

Definition tagged (c : string) (cls : Class) (v : Z) : Obj Fields :=
  {| o_channel := Some (Some c); o_proto := Some (cls_prototype cls); o_fields := num v |}.

(** [new Ping(1)] and [new Pong(5)], nothing sent yet. *)
Definition world_ping_pong : World Fields Check unit :=
  holding [(0, construct Ping (num 1)); (1, construct Pong (num 5))].

(** [new Ping(1)], a [Pong] that [enc] refuses, [new Ping(3)]. *)
Definition world_unencodable : World Fields Check unit :=
  holding [(0, construct Ping (num 1)); (1, construct Pong (num (-1))); (2, construct Ping (num 3))].

(** The same with the three messages sent before the manager is ready. *)
Definition world_unencodable_queued : World Fields Check unit :=
  after (forEach_send enc tx [0; 1; 2]) world_unencodable.

(** A manager made ready at once. *)
Definition made_ready (w : World Fields Check unit) : World Fields Check unit :=
  after (ready enc tx) w.

(** An instance of [Pong] on which the caller wrote the tag "ping". *)
Definition world_mistagged : World Fields Check unit :=
  made_ready (holding [(0, tagged "ping" Pong 5%Z)]).

(** A message tagged with a channel nobody registered. *)
Definition world_stranger : World Fields Check unit :=
  holding [(0, tagged "unregistered" Pong 5%Z)].

(** A plain object on which the caller wrote the tag "ping": it belongs to no
    registered class, its prototype being [Object.prototype]. *)
Definition world_plain : World Fields Check unit :=
  holding [(0, {| o_channel := Some (Some "ping");
                  o_proto := Some Object_prototype;
                  o_fields := num 1 |})].

(** Two received messages in the store: a pong of value 5 and one of value 7;
    callback 7 listens for [Pong]; three awaiters wait, for a [Ping] and for
    two [Pong]s of value 5. *)
Definition world_dispatch : World Fields Check unit :=
  after (awaitMessage Pong (value_is 5) 2)
    (after (awaitMessage Pong (value_is 5) 1)
       (after (awaitMessage Ping (value_is 5) 0)
          (after (listen Pong 7)
             (holding [(0, tagged "pong" Pong 5%Z); (1, tagged "pong" Pong 7%Z)])))).

(** Callback 7 listens for [Pong]; then one awaiter for a [Pong] of value 5. *)
Definition world_listening : World Fields Check unit :=
  after (awaitMessage Pong (value_is 5) 1) (after (listen Pong 7) world_registered).

(** Only callback 7 listens for [Pong]. *)
Definition world_one_listener : World Fields Check unit :=
  after (listen Pong 7) world_registered.

(** An awaiter for [Pong] whose predicate throws. *)
Definition world_throwing_awaiter : World Fields Check unit :=
  after (awaitMessage Pong throwing_predicate 1) world_registered.

(** Callbacks 7 and 13 listen for [Pong]; 13 throws. *)
Definition world_throwing_listener : World Fields Check unit :=
  after (listen Pong 13) (after (listen Pong 7) world_registered).

(** The three awaiters of [world_dispatch], in registration order. *)
Definition awaiter_ping : Awaiter Fields :=
  {| channel := Some "ping"; predicate := value_is 5; resolve := 0 |}.
Definition awaiter_pong1 : Awaiter Fields :=
  {| channel := Some "pong"; predicate := value_is 5; resolve := 1 |}.
Definition awaiter_pong2 : Awaiter Fields :=
  {| channel := Some "pong"; predicate := value_is 5; resolve := 2 |}.

(** The two messages of [world_ping_pong] sent before the manager is ready. *)
Definition world_ping_pong_queued : World Fields Check unit :=
  after (forEach_send enc tx [0; 1]) world_ping_pong.

(** [JSON.parse] on three texts: a pong of value 5, a pong of value 500, and
    anything else, which is not JSON. *)
Definition parse_text (m : Mem Fields) (raw : string) : Res addr * Mem Fields :=
  let pong v :=
    let '(a, m') := alloc m {| o_channel := Some (Some "pong");
                               o_proto := Some Object_prototype;
                               o_fields := num v |} in
    (Ok a, m') in
  if decide (raw = "pong 5") then pong 5%Z
  else if decide (raw = "pong 500") then pong 500%Z
  else (Throw (ErrUser "SyntaxError"), m).

(** [class Reply extends Pong], never registered itself. *)
Definition Reply : Class := {| cls_prototype := 3 |}.

Definition protos_with_Reply : gmap addr ProtoObj :=
  <[3 := {| p_channel := None; p_parent := Some (cls_prototype Pong) |}]>
    (protos (mem world_registered)).

(** The internal manager's transport refuses messages of negative value. *)
Definition tx_object (m : Mem Fields) (data : addr) : option Err :=
  match objs m !! data with
  | Some o => if (value (o_fields o) <? 0)%Z then Some (ErrUser "refused") else None
  | None => None
  end.

End Fixture.

(** Discharges [transmits_as] and [encode_fails] at a concrete message. *)
Ltac concrete_message :=
  eexists _, _; repeat split;
  first [ reflexivity | vm_compute; eexists; reflexivity ].

(** Discharges [receives] for a pong of value 5 arriving at the fixture. *)
Ltac pong_received :=
  exists "pong",
    (snd (Fixture.dec (mem Fixture.world_registered)
            (Some (Some "pong", Fixture.num 5)))),
    Fixture.value_below_100, tt;
  repeat split; reflexivity.

(** * Properties *)

Section Dispatch.

Context {Payload IOType Validator CustomData : Type}.
Variable callback_run : nat -> Mem Payload -> addr -> option Err.

Implicit Types (w : World Payload Validator CustomData) (data : addr).
Implicit Types (a : Awaiter Payload) (pre post aws : list (Awaiter Payload)).

Lemma scan_awaiters_passes_over m data a aws i :
  passes_over m data a ->
  scan_awaiters m data (a :: aws) i = scan_awaiters m data aws (S i).
Proof.
  intros [Hne | Hfalse]; simpl.
  - destruct (decide (channel a = get_channel m data)); [contradiction | reflexivity].
  - rewrite Hfalse. destruct (decide (channel a = get_channel m data)); reflexivity.
Qed.

Lemma scan_awaiters_hit m data pre a post i :
  Forall (passes_over m data) pre ->
  takes m data a ->
  scan_awaiters m data (pre ++ a :: post) i = ScanHit (i + length pre) a.
Proof.
  intros Hpre [Hc Hp]. revert i.
  induction Hpre as [| b pre Hb _ IH]; intros i.
  - simpl. rewrite Hp. rewrite decide_True by exact Hc. f_equal. lia.
  - rewrite <- app_comm_cons, scan_awaiters_passes_over by exact Hb.
    rewrite IH. f_equal. simpl. lia.
Qed.

Lemma scan_awaiters_none m data aws i :
  Forall (passes_over m data) aws ->
  scan_awaiters m data aws i = ScanNone.
Proof.
  intros H. revert i. induction H as [| b aws Hb _ IH]; intros i; [reflexivity |].
  rewrite scan_awaiters_passes_over by exact Hb. apply IH.
Qed.

Lemma scan_awaiters_throw m data pre a post i e :
  Forall (passes_over m data) pre ->
  channel a = get_channel m data ->
  predicate a m data = Throw e ->
  scan_awaiters m data (pre ++ a :: post) i = ScanThrow e.
Proof.
  intros Hpre Hc Hp. revert i.
  induction Hpre as [| b pre Hb _ IH]; intros i.
  - simpl. rewrite Hp. rewrite decide_True by exact Hc. reflexivity.
  - rewrite <- app_comm_cons, scan_awaiters_passes_over by exact Hb. apply IH.
Qed.

Lemma run_callbacks_all (m : Mem Payload) data (cbs : list nat) :
  Forall (λ cb, callback_run cb m data = None) cbs ->
  run_callbacks (IOType := IOType) callback_run m data cbs
  = (Ok tt, map (λ cb, EvCallback cb data) cbs).
Proof.
  induction 1 as [| cb cbs Hcb _ IH]; simpl; [reflexivity |].
  rewrite Hcb, IH. reflexivity.
Qed.

Lemma run_callbacks_throw (m : Mem Payload) data (cbs1 cbs2 : list nat) cb e :
  Forall (λ cb, callback_run cb m data = None) cbs1 ->
  callback_run cb m data = Some e ->
  run_callbacks (IOType := IOType) callback_run m data (cbs1 ++ cb :: cbs2)
  = (Throw e, map (λ cb, EvCallback cb data) (cbs1 ++ [cb])).
Proof.
  intros H Hcb. induction H as [| c cbs1 Hc _ IH]; simpl.
  - rewrite Hcb. reflexivity.
  - rewrite Hc, IH. reflexivity.
Qed.

(** C1. [notifyListeners] scans the awaiters in registration order.  The first
    awaiter with the message's channel whose predicate returns true is resolved
    with the message and removed from the list, and nothing else happens: no
    later awaiter is resolved and no listener callback runs.  If every awaiter
    is passed over, each callback registered under the message's channel is
    called with the message (callbacks returning normally). *)
Theorem notifyListeners_awaiter_then_listeners w data :
  (∀ pre a post,
     awaiters (mgr w) = pre ++ a :: post ->
     Forall (passes_over (mem w) data) pre ->
     takes (mem w) data a ->
     notifyListeners (IOType := IOType) callback_run data w
     = (Ok tt, set_mgr w (with_awaiters (mgr w) (pre ++ post)),
        [EvResolve (resolve a) data]))
  ∧ (Forall (passes_over (mem w) data) (awaiters (mgr w)) ->
     Forall (λ cb, callback_run cb (mem w) data = None)
       (callbacks_of (mgr w) (get_channel (mem w) data)) ->
     notifyListeners (IOType := IOType) callback_run data w
     = (Ok tt, w,
        map (λ cb, EvCallback cb data)
          (callbacks_of (mgr w) (get_channel (mem w) data)))).
Proof.
  split.
  - intros pre a post Haw Hpre Ha. unfold notifyListeners.
    rewrite Haw, (scan_awaiters_hit _ _ _ _ _ 0 Hpre Ha). simpl.
    rewrite delete_middle. reflexivity.
  - intros Haw Hcbs. unfold notifyListeners.
    rewrite (scan_awaiters_none _ _ _ 0 Haw).
    unfold callbacks_of in *.
    destruct (listeners (mgr w) !! get_channel (mem w) data) as [cbs |]; simpl in *.
    + rewrite (run_callbacks_all _ _ _ Hcbs). reflexivity.
    + reflexivity.
Qed.

End Dispatch.

Section Sending.

Context {Payload IOType Validator CustomData : Type}.
Variable encode : gmap addr ProtoObj -> Obj Payload -> Res IOType.
Variable transmit : IOType -> option Err.

Implicit Types (w : World Payload Validator CustomData) (data : addr).
Implicit Types (o : Obj Payload) (q ms : list addr) (ios : list IOType).

Lemma stamp_inv (P : gmap addr ProtoObj) o o' :
  stamp P o = Ok o' ->
  ∃ p, o_proto o = Some p
       ∧ o' = {| o_channel := Some (proto_channel P p);
                 o_proto := Some p;
                 o_fields := o_fields o |}.
Proof.
  unfold stamp. destruct (o_proto o) as [p |] eqn:Hp; [| discriminate].
  intros [= <-]. exists p. split; reflexivity.
Qed.

Lemma stamp_idempotent (P : gmap addr ProtoObj) o o' :
  stamp P o = Ok o' -> stamp P o' = Ok o'.
Proof.
  intros H. destruct (stamp_inv _ _ _ H) as (p & _ & ->). reflexivity.
Qed.

(** C4. A message whose channel has no registry entry makes [send] throw at
    once, whether the manager is ready or not: nothing is transmitted and the
    queue, like the rest of the state, is as before. *)
Theorem send_unregistered_throws w data :
  entries w !! get_channel (mem w) data = None ->
  send encode transmit data w = (Throw ErrNotRegistered, w, []).
Proof.
  intros H. unfold send. rewrite H. reflexivity.
Qed.

Lemma send_queues w data :
  registered w data ->
  isReady (mgr w) = false ->
  send encode transmit data w
  = (Ok tt, set_mgr w (with_queue (mgr w) (queue (mgr w) ++ [data])), []).
Proof.
  intros [entry Hreg] Hnr. unfold send. rewrite Hreg, Hnr. reflexivity.
Qed.

Lemma send_ready_reaches_encode w data entry o o' :
  isReady (mgr w) = true ->
  entries w !! get_channel (mem w) data = Some entry ->
  objs (mem w) !! data = Some o ->
  stamp (protos (mem w)) o = Ok o' ->
  send encode transmit data w
  = match encode (protos (mem w)) o' with
    | Ok encoded =>
        (match transmit encoded with Some e => Throw e | None => Ok tt end,
         stamped_world w data o', [EvTransmit encoded])
    | Throw e => (Throw (ErrEncode e), stamped_world w data o', [])
    end.
Proof.
  intros Hr Hreg Ho Hst. unfold send. rewrite Hreg, Hr, Ho, Hst. simpl.
  destruct (encode (protos (mem w)) o') as [encoded |]; [| reflexivity].
  destruct (transmit encoded); reflexivity.
Qed.

(** C6. A send made while ready that gets as far as [encode] hands it the
    message with its [channel] field overwritten by the channel stored on the
    prototype, which is the channel registered for its class; the value the
    field had before plays no part, and the same object is what the store
    holds from then on. *)
Theorem send_ready_stamps_channel w data entry o p cls :
  isReady (mgr w) = true ->
  entries w !! get_channel (mem w) data = Some entry ->
  objs (mem w) !! data = Some o ->
  o_proto o = Some p ->
  cls_prototype cls = p ->
  ∃ o',
    o_channel o' = Some (Sendable_channel (protos (mem w)) cls)
    ∧ o_proto o' = o_proto o
    ∧ o_fields o' = o_fields o
    ∧ send encode transmit data w
      = match encode (protos (mem w)) o' with
        | Ok encoded =>
            (match transmit encoded with Some e => Throw e | None => Ok tt end,
             stamped_world w data o', [EvTransmit encoded])
        | Throw e => (Throw (ErrEncode e), stamped_world w data o', [])
        end
    ∧ get_channel (mem (stamped_world w data o')) data
      = Sendable_channel (protos (mem w)) cls.
Proof.
  intros Hr Hreg Ho Hp <-.
  exists {| o_channel := Some (proto_channel (protos (mem w)) (cls_prototype cls));
            o_proto := o_proto o;
            o_fields := o_fields o |}.
  repeat split.
  - apply (send_ready_reaches_encode _ _ entry o); try assumption.
    unfold stamp. rewrite Hp. reflexivity.
  - unfold get_channel, stamped_world. simpl. rewrite lookup_insert_eq. reflexivity.
Qed.

(** ** Queueing and draining *)

Lemma forEach_send_queues ms : ∀ w,
  isReady (mgr w) = false ->
  Forall (registered w) ms ->
  forEach_send encode transmit ms w
  = (Ok tt, set_mgr w (with_queue (mgr w) (queue (mgr w) ++ ms)), []).
Proof.
  induction ms as [| a ms IH]; intros w Hnr Hall.
  - simpl. rewrite app_nil_r. destruct w as [m r []]. reflexivity.
  - inversion Hall as [| ? ? Ha Hms]; subst. simpl.
    rewrite (send_queues _ _ Ha Hnr).
    rewrite IH; [| exact Hnr | exact Hms].
    simpl. rewrite <- app_assoc. reflexivity.
Qed.

Lemma get_channel_stamped w data o' b :
  b ≠ data ->
  get_channel (mem (stamped_world w data o')) b = get_channel (mem w) b.
Proof.
  intros Hne. unfold get_channel, stamped_world. simpl.
  rewrite lookup_insert_ne by congruence. reflexivity.
Qed.

(** Stamping one message leaves every message as transmittable as it was. *)
Lemma transmits_as_stamped w data o o' b io :
  objs (mem w) !! data = Some o ->
  stamp (protos (mem w)) o = Ok o' ->
  transmits_as encode transmit w b io ->
  transmits_as encode transmit (stamped_world w data o') b io.
Proof.
  intros Ho Hst (ob & ob' & Hob & Hreg & Hstb & Hreg' & Henc & Htx).
  destruct (decide (b = data)) as [-> | Hne].
  - assert (ob = o) as -> by congruence. assert (ob' = o') as -> by congruence.
    exists o', o'. repeat split.
    + unfold stamped_world. simpl. apply lookup_insert_eq.
    + unfold registered, get_channel, stamped_world. simpl.
      rewrite lookup_insert_eq.
      destruct (stamp_inv _ _ _ Hst) as (p & _ & ->). exact Hreg'.
    + simpl. exact (stamp_idempotent _ _ _ Hst).
    + exact Hreg'.
    + exact Henc.
    + exact Htx.
  - exists ob, ob'. repeat split; try assumption.
    + unfold stamped_world. simpl. rewrite lookup_insert_ne by congruence. exact Hob.
    + unfold registered. rewrite get_channel_stamped by exact Hne. exact Hreg.
Qed.

Lemma encode_fails_stamped w data o o' io b e :
  objs (mem w) !! data = Some o ->
  stamp (protos (mem w)) o = Ok o' ->
  encode (protos (mem w)) o' = Ok io ->
  encode_fails encode w b e ->
  encode_fails encode (stamped_world w data o') b e.
Proof.
  intros Ho Hst Henc (ob & ob' & Hob & Hreg & Hstb & Hthrow).
  destruct (decide (b = data)) as [-> | Hne].
  - assert (ob = o) as -> by congruence. assert (ob' = o') as -> by congruence.
    congruence.
  - exists ob, ob'. repeat split; try assumption.
    + unfold stamped_world. simpl. rewrite lookup_insert_ne by congruence. exact Hob.
    + unfold registered. rewrite get_channel_stamped by exact Hne. exact Hreg.
Qed.

Lemma send_transmits w data io :
  isReady (mgr w) = true ->
  transmits_as encode transmit w data io ->
  ∃ o o',
    objs (mem w) !! data = Some o
    ∧ stamp (protos (mem w)) o = Ok o'
    ∧ encode (protos (mem w)) o' = Ok io
    ∧ send encode transmit data w = (Ok tt, stamped_world w data o', [EvTransmit io]).
Proof.
  intros Hr (o & o' & Ho & [entry Hreg] & Hst & _ & Henc & Htx).
  exists o, o'. repeat split; try assumption.
  rewrite (send_ready_reaches_encode _ _ entry o o') by assumption.
  rewrite Henc, Htx. reflexivity.
Qed.

Lemma send_encode_fails w data e :
  isReady (mgr w) = true ->
  encode_fails encode w data e ->
  ∃ o', send encode transmit data w = (Throw (ErrEncode e), stamped_world w data o', []).
Proof.
  intros Hr (o & o' & Ho & [entry Hreg] & Hst & Henc).
  exists o'. rewrite (send_ready_reaches_encode _ _ entry o o') by assumption.
  rewrite Henc. reflexivity.
Qed.

(** The drain loop on messages that all go through. *)
Lemma forEach_send_transmits q : ∀ ios w,
  isReady (mgr w) = true ->
  Forall2 (transmits_as encode transmit w) q ios ->
  ∃ w',
    forEach_send encode transmit q w = (Ok tt, w', map EvTransmit ios)
    ∧ mgr w' = mgr w.
Proof.
  induction q as [| a q IH]; intros ios w Hr Hall.
  - inversion Hall; subst. exists w. split; reflexivity.
  - inversion Hall as [| ? io ? ios' Ha Hq]; subst.
    destruct (send_transmits _ _ _ Hr Ha) as (o & o' & Ho & Hst & Henc & Hsend).
    destruct (IH ios' (stamped_world w a o')) as (w' & Hrun & Hmgr).
    + exact Hr.
    + eapply Forall2_impl; [exact Hq |].
      intros b io'. apply (transmits_as_stamped _ _ o); assumption.
    + exists w'. split; [| exact Hmgr].
      simpl. rewrite Hsend, Hrun. reflexivity.
Qed.

(** The drain loop when [encode] throws on the message after [pre]. *)
Lemma forEach_send_encode_fails pre : ∀ ios w a post e,
  isReady (mgr w) = true ->
  Forall2 (transmits_as encode transmit w) pre ios ->
  encode_fails encode w a e ->
  ∃ w',
    forEach_send encode transmit (pre ++ a :: post) w
    = (Throw (ErrEncode e), w', map EvTransmit ios)
    ∧ mgr w' = mgr w.
Proof.
  induction pre as [| b pre IH]; intros ios w a post e Hr Hall Hfail.
  - inversion Hall; subst.
    destruct (send_encode_fails _ _ _ Hr Hfail) as (o' & Hsend).
    exists (stamped_world w a o'). simpl. rewrite Hsend. split; reflexivity.
  - inversion Hall as [| ? io ? ios' Hb Hpre]; subst.
    destruct (send_transmits _ _ _ Hr Hb) as (o & o' & Ho & Hst & Henc & Hsend).
    destruct (IH ios' (stamped_world w b o') a post e) as (w' & Hrun & Hmgr).
    + exact Hr.
    + eapply Forall2_impl; [exact Hpre |].
      intros c io'. apply (transmits_as_stamped _ _ o); assumption.
    + apply (encode_fails_stamped _ _ o o' io); assumption.
    + exists w'. split; [| exact Hmgr].
      simpl. rewrite Hsend, Hrun. reflexivity.
Qed.

Lemma ready_transmits w ios :
  Forall2 (transmits_as encode transmit w) (queue (mgr w)) ios ->
  ∃ w',
    ready encode transmit w = (Ok tt, w', map EvTransmit ios)
    ∧ mgr w' = with_queue (with_isReady (mgr w) true) [].
Proof.
  intros Hall. unfold ready.
  destruct (forEach_send_transmits (queue (mgr w)) ios
              (set_mgr w (with_isReady (mgr w) true)) eq_refl Hall)
    as (w' & Hrun & Hmgr).
  simpl in *. rewrite Hrun. eexists. split; [reflexivity |].
  simpl. rewrite Hmgr. reflexivity.
Qed.

(** C2, amended.  Messages sent to a manager that is not ready and has an
    empty queue, each carrying a registered channel, are queued without any
    transmission.  If moreover each of them has a prototype whose channel is
    registered, and [encode] and [transmit] return normally on it once
    stamped, [ready] transmits their encoded forms, one call per message and
    in the order of the sends, and leaves the manager ready with an empty
    queue. *)
Theorem queued_sends_transmitted_in_order w ms ios :
  isReady (mgr w) = false ->
  queue (mgr w) = [] ->
  Forall2 (transmits_as encode transmit w) ms ios ->
  ∃ w1 w2,
    forEach_send encode transmit ms w = (Ok tt, w1, [])
    ∧ queue (mgr w1) = ms
    ∧ ready encode transmit w1 = (Ok tt, w2, map EvTransmit ios)
    ∧ queue (mgr w2) = []
    ∧ isReady (mgr w2) = true.
Proof.
  intros Hnr Hq Hall.
  assert (Forall (registered w) ms) as Hreg.
  { clear -Hall. induction Hall as [| a io ms ios Ha _ IH]; constructor; [| exact IH].
    destruct Ha as (_ & _ & _ & Hr & _). exact Hr. }
  set (w1 := set_mgr w (with_queue (mgr w) (queue (mgr w) ++ ms))).
  destruct (ready_transmits w1 ios) as (w2 & Hready & Hmgr).
  { simpl. rewrite Hq. exact Hall. }
  exists w1, w2. split; [apply forEach_send_queues; assumption |].
  split; [simpl; rewrite Hq; reflexivity |].
  split; [exact Hready |].
  rewrite Hmgr. split; reflexivity.
Qed.

Lemma send_keeps_ready data w r w' evs :
  isReady (mgr w) = true ->
  send encode transmit data w = (r, w', evs) ->
  mgr w' = mgr w.
Proof.
  intros Hr. unfold send. rewrite Hr. simpl.
  destruct (entries w !! _); [| by intros [= <- <- <-]].
  destruct (objs (mem w) !! data); [| by intros [= <- <- <-]].
  destruct (stamp _ _); [| by intros [= <- <- <-]].
  destruct (encode _ _) as [encoded |]; [| by intros [= <- <- <-]].
  destruct (transmit encoded); by intros [= <- <- <-].
Qed.

Lemma forEach_send_keeps_ready q : ∀ w r w' evs,
  isReady (mgr w) = true ->
  forEach_send encode transmit q w = (r, w', evs) ->
  mgr w' = mgr w.
Proof.
  induction q as [| a q IH]; intros w r w' evs Hr; simpl.
  - by intros [= <- <- <-].
  - destruct (send encode transmit a w) as [[[u | e] w1] evs1] eqn:Hsend.
    + pose proof (send_keeps_ready _ _ _ _ _ Hr Hsend) as Hmgr.
      destruct (forEach_send encode transmit q w1) as [[r2 w2] evs2] eqn:Hrest.
      intros [= <- <- <-]. rewrite <- Hmgr. eapply IH; [| exact Hrest].
      rewrite Hmgr. exact Hr.
    + intros [= <- <- <-]. exact (send_keeps_ready _ _ _ _ _ Hr Hsend).
Qed.

Lemma ready_noop w :
  isReady (mgr w) = true -> queue (mgr w) = [] -> ready encode transmit w = (Ok tt, w, []).
Proof.
  destruct w as [m r [ls aws q b]]. simpl. intros -> ->. reflexivity.
Qed.

(** C7, amended.  On a manager that is ready and whose queue is empty, [ready]
    changes nothing and transmits nothing; this is the state every [ready]
    that returns normally leaves behind, so a second call after such a first
    one adds nothing to what was transmitted. *)
Theorem ready_again_is_noop w :
  (isReady (mgr w) = true -> queue (mgr w) = [] -> ready encode transmit w = (Ok tt, w, []))
  ∧ (∀ w1 evs, ready encode transmit w = (Ok tt, w1, evs) -> ready encode transmit w1 = (Ok tt, w1, [])).
Proof.
  split; [apply ready_noop |].
  intros w1 evs. unfold ready.
  destruct (forEach_send encode transmit _ _) as [[[u | e] w2] evs2] eqn:Hdrain;
    [| discriminate].
  intros [= <- <-].
  apply forEach_send_keeps_ready in Hdrain; [| reflexivity].
  apply ready_noop; simpl; [| reflexivity].
  rewrite Hdrain. reflexivity.
Qed.

(** C10. If, while [ready] drains the queue, [encode] throws on a message,
    the error leaves [ready]: the messages queued before the failing one have
    been transmitted, none of those queued after it is, the queue still holds
    every message it held and the manager is ready. *)
Theorem ready_encode_failure_propagates w pre a post ios e :
  queue (mgr w) = pre ++ a :: post ->
  Forall2 (transmits_as encode transmit w) pre ios ->
  encode_fails encode w a e ->
  ∃ w',
    ready encode transmit w = (Throw (ErrEncode e), w', map EvTransmit ios)
    ∧ queue (mgr w') = pre ++ a :: post
    ∧ isReady (mgr w') = true.
Proof.
  intros Hq Hall Hfail. unfold ready.
  destruct (forEach_send_encode_fails pre ios
              (set_mgr w (with_isReady (mgr w) true)) a post e eq_refl Hall Hfail)
    as (w' & Hrun & Hmgr).
  exists w'. simpl in *. rewrite Hq, Hrun, Hmgr. simpl. repeat split. exact Hq.
Qed.

End Sending.

Section Receiving.

Context {Payload IOType Validator CustomData : Type}.
Variable decode : Mem Payload -> IOType -> Res (Val * addr) * Mem Payload.
Variable finalize :
  Mem Payload -> addr -> Validator -> CustomData -> Res addr * Mem Payload.
Variable intermediate_to_string : Mem Payload -> addr -> option Err.
Variable raw_to_string : IOType -> option Err.
Variable callback_run : nat -> Mem Payload -> addr -> option Err.

Local Abbreviation onData' :=
  (onData decode finalize intermediate_to_string raw_to_string callback_run).

Implicit Types (w : World Payload Validator CustomData) (raw : IOType).

(** What [onData] does with a message it gives up: it prepares the warning,
    and either a string conversion throws or the warning is logged and the
    call returns; nothing is resolved, no callback runs, and listeners,
    awaiters, queue, ready flag and registry are what they were. *)
Lemma onData_drops w raw wn conversions m' :
  drops decode finalize intermediate_to_string raw_to_string w raw wn conversions m' ->
  onData' raw w = warn conversions wn (set_mem w m').
Proof.
  intros H. unfold onData.
  destruct H as [e m1 Hd | v i m1 Hd Hv | c i m1 Hd Hreg
                 | c i m1 cls strats cd e m2 Hd Hreg Hfin]; rewrite Hd.
  - reflexivity.
  - destruct v; try reflexivity. discriminate.
  - rewrite Hreg. reflexivity.
  - rewrite Hreg, Hfin. reflexivity.
Qed.

Lemma onData_drops_silently w raw wn conversions m' :
  drops decode finalize intermediate_to_string raw_to_string w raw wn conversions m' ->
  Forall (λ c, c = None) conversions ->
  onData' raw w = (Ok tt, set_mem w m', [EvWarn wn]).
Proof.
  intros H Hconv. rewrite (onData_drops _ _ _ _ _ H). unfold warn.
  clear H. replace (first_throw conversions) with (@None Err); [reflexivity |].
  induction Hconv as [| c cs -> _ IH]; [reflexivity | exact IH].
Qed.

(** When the validator says no, [JSONListenerManager.finalize] throws. *)
Lemma JSON_finalize_rejects (m : Mem Payload) data check :
  check m data = false -> JSON_finalize m data check = (Throw ErrTypeCheck, m).
Proof. intros H. unfold JSON_finalize. rewrite H. reflexivity. Qed.

Lemma JSON_finalize_accepts (m : Mem Payload) data check :
  check m data = true -> JSON_finalize m data check = (Ok data, m).
Proof. intros H. unfold JSON_finalize. rewrite H. reflexivity. Qed.

(** After a successful receive the pipeline retags [intermediate] and hands
    [decoded] to the dispatch engine. *)
Lemma onData_receives w raw intermediate classType decoded m2 :
  receives decode finalize w raw intermediate classType decoded m2 ->
  onData' raw w
  = notifyListeners callback_run decoded
      (set_mem w (setPrototypeOf m2 intermediate (cls_prototype classType))).
Proof.
  intros (c & m1 & strats & cd & Hd & Hreg & Hfin).
  unfold onData. rewrite Hd, Hreg, Hfin. reflexivity.
Qed.

(** Where [finalize] returns the object it was given, as the JSON manager
    does, the object handed to the dispatch engine has the registered class's
    prototype. *)
Lemma onData_same_object_retagged w raw intermediate classType m2 o :
  receives decode finalize w raw intermediate classType intermediate m2 ->
  objs m2 !! intermediate = Some o ->
  instance_of (setPrototypeOf m2 intermediate (cls_prototype classType))
    intermediate classType.
Proof.
  intros _ Ho. unfold instance_of, setPrototypeOf. simpl.
  eexists. rewrite lookup_alter_eq, Ho. simpl. split; reflexivity.
Qed.

(** C9. An exception raised while a received message is dispatched leaves
    [onData]: one thrown by the predicate of the first awaiter on the
    message's channel that is not passed over, and one thrown by a callback
    registered under that channel when no awaiter takes the message. *)
Theorem onData_dispatch_exception_propagates w raw intermediate classType decoded m2 :
  receives decode finalize w raw intermediate classType decoded m2 ->
  let w1 := set_mem w (setPrototypeOf m2 intermediate (cls_prototype classType)) in
  (∀ pre a post e,
     awaiters (mgr w1) = pre ++ a :: post ->
     Forall (passes_over (mem w1) decoded) pre ->
     channel a = get_channel (mem w1) decoded ->
     predicate a (mem w1) decoded = Throw e ->
     onData' raw w = (Throw e, w1, []))
  ∧ (∀ cbs1 cb cbs2 e,
       Forall (passes_over (mem w1) decoded) (awaiters (mgr w1)) ->
       callbacks_of (mgr w1) (get_channel (mem w1) decoded) = cbs1 ++ cb :: cbs2 ->
       Forall (λ c, callback_run c (mem w1) decoded = None) cbs1 ->
       callback_run cb (mem w1) decoded = Some e ->
       onData' raw w
       = (Throw e, w1, map (λ c, EvCallback c decoded) (cbs1 ++ [cb]))).
Proof.
  intros Hrecv w1. rewrite (onData_receives _ _ _ _ _ _ Hrecv). fold w1. split.
  - intros pre a post e Haw Hpre Hc Hp. unfold notifyListeners.
    rewrite Haw, (scan_awaiters_throw _ _ _ _ _ 0 e Hpre Hc Hp). reflexivity.
  - intros cbs1 cb cbs2 e Haw Hcbs Hok Hcb. unfold notifyListeners.
    rewrite (scan_awaiters_none _ _ _ 0 Haw).
    unfold callbacks_of in Hcbs.
    destruct (listeners (mgr w1) !! get_channel (mem w1) decoded) as [cbs |];
      simpl in Hcbs; [| by destruct cbs1].
    subst cbs. rewrite (run_callbacks_throw _ _ _ _ _ _ _ Hok Hcb). reflexivity.
Qed.

End Receiving.

Section Registration.

Context {Payload IOType Validator CustomData : Type}.

Implicit Types (w : World Payload Validator CustomData) (cls : Class).

Lemma proto_channel_own (P : gmap addr ProtoObj) p po c :
  P !! p = Some po -> p_channel po = Some c -> proto_channel P p = c.
Proof.
  intros HP Hc. unfold proto_channel. simpl. rewrite HP, Hc. reflexivity.
Qed.

Lemma Sendable_channel_set_proto_channel (m : Mem Payload) cls c :
  is_Some (protos m !! cls_prototype cls) ->
  Sendable_channel (protos (set_proto_channel m (cls_prototype cls) c)) cls = Some c.
Proof.
  intros [po Hpo]. unfold Sendable_channel, set_proto_channel. simpl.
  eapply proto_channel_own.
  - rewrite lookup_alter_eq, Hpo. reflexivity.
  - reflexivity.
Qed.

(** C8. [MakeSendable] with channel [c] on a class puts [c] on the class's
    prototype and stores the class, its validator and its extra data in the
    registry under the key [c]; an instance constructed afterwards reads [c]
    as its [channel]. *)
Theorem MakeSendable_channel_and_entry w c strategy customData cls :
  is_Some (protos (mem w) !! cls_prototype cls) ->
  ∃ w',
    MakeSendable (IOType := IOType) c strategy customData cls w = (Ok tt, w', [])
    ∧ entries w' !! Some c = Some (cls, strategy, customData)
    ∧ Sendable_channel (protos (mem w')) cls = Some c
    ∧ ∀ a fields,
        get_channel {| protos := protos (mem w');
                       objs := <[a := construct cls fields]> (objs (mem w')) |} a
        = Some c.
Proof.
  intros Hp.
  pose proof (Sendable_channel_set_proto_channel (mem w) cls c Hp) as Hch.
  eexists. split; [reflexivity |].
  cbn [entries mem set_entries set_mem]. rewrite Hch.
  split; [apply lookup_insert_eq |]. split; [reflexivity |].
  intros a fields. unfold get_channel. cbn [objs protos].
  rewrite lookup_insert_eq. exact Hch.
Qed.

End Registration.

(** * Listeners and awaiters *)

Section Listening.

Context {Payload IOType Validator CustomData : Type}.
Variable callback_run : nat -> Mem Payload -> addr -> option Err.

Implicit Types (w : World Payload Validator CustomData) (data : addr).
Implicit Types (cls : Class) (cb : nat) (c : chan).

Local Abbreviation listen' := (listen (IOType := IOType)).
Local Abbreviation stopListening' := (stopListening (IOType := IOType)).
Local Abbreviation awaitMessage' := (awaitMessage (IOType := IOType)).
Local Abbreviation notifyListeners' := (notifyListeners (IOType := IOType) callback_run).

Lemma set_mgr_same w : set_mgr w (mgr w) = w.
Proof. destruct w. reflexivity. Qed.

Lemma with_listeners_same (g : Manager Payload) : with_listeners g (listeners g) = g.
Proof. destruct g. reflexivity. Qed.

Lemma with_awaiters_same (g : Manager Payload) : with_awaiters g (awaiters g) = g.
Proof. destruct g. reflexivity. Qed.

Lemma set_add_elem cb (s : list nat) : cb ∈ set_add cb s.
Proof.
  unfold set_add. destruct (decide (cb ∈ s)); [assumption |].
  apply elem_of_app. right. apply list_elem_of_singleton. reflexivity.
Qed.

Lemma set_add_Forall (Q : nat -> Prop) cb (s : list nat) :
  Q cb -> Forall Q s -> Forall Q (set_add cb s).
Proof.
  intros Hcb Hs. unfold set_add. destruct (decide (cb ∈ s)); [exact Hs |].
  apply Forall_app. split; [exact Hs | repeat constructor; exact Hcb].
Qed.

Lemma set_add_NoDup cb (s : list nat) : NoDup s -> NoDup (set_add cb s).
Proof.
  intros Hs. unfold set_add. destruct (decide (cb ∈ s)) as [| Hnot]; [assumption |].
  apply NoDup_app. split; [assumption |]. split; [| apply NoDup_singleton].
  intros x Hx Hx'. apply list_elem_of_singleton in Hx'. subst. contradiction.
Qed.

Lemma set_add_prefix cb (s : list nat) : s `prefix_of` set_add cb s.
Proof.
  unfold set_add. destruct (decide (cb ∈ s)); [reflexivity |].
  apply prefix_app_r. reflexivity.
Qed.

Lemma set_delete_set_add cb (s : list nat) :
  cb ∉ s -> set_delete cb (set_add cb s) = s.
Proof.
  intros Hnot. unfold set_add, set_delete. rewrite decide_False by assumption.
  induction s as [| x s IH]; simpl.
  - rewrite filter_cons_False by (intros H; apply H; reflexivity). reflexivity.
  - apply not_elem_of_cons in Hnot as [Hne Hs].
    rewrite filter_cons_True by congruence. f_equal. apply IH. exact Hs.
Qed.

(** The callbacks of every channel after [listen]. *)
Lemma listen_callbacks_of w cls cb c :
  callbacks_of (mgr (snd (fst (listen' cls cb w)))) c
  = if decide (c = Sendable_channel (protos (mem w)) cls)
    then set_add cb (callbacks_of (mgr w) c)
    else callbacks_of (mgr w) c.
Proof.
  unfold listen, callbacks_of. simpl.
  set (ch := Sendable_channel (protos (mem w)) cls).
  destruct (decide (c = ch)) as [-> | Hne].
  - rewrite lookup_alter_eq.
    destruct (listeners (mgr w) !! ch) as [s |] eqn:Hs.
    + rewrite Hs. reflexivity.
    + rewrite lookup_insert_eq. reflexivity.
  - rewrite lookup_alter_ne by congruence.
    destruct (listeners (mgr w) !! ch); [reflexivity |].
    rewrite lookup_insert_ne by congruence. reflexivity.
Qed.

(** The callbacks of every channel after [stopListening]. *)
Lemma stopListening_callbacks_of w cls cb c :
  callbacks_of (mgr (snd (fst (stopListening' cls cb w)))) c
  = if decide (c = Sendable_channel (protos (mem w)) cls)
    then set_delete cb (callbacks_of (mgr w) c)
    else callbacks_of (mgr w) c.
Proof.
  unfold stopListening, callbacks_of.
  set (ch := Sendable_channel (protos (mem w)) cls).
  destruct (listeners (mgr w) !! ch) as [s |] eqn:Hs; simpl.
  - destruct (decide (c = ch)) as [-> | Hne].
    + rewrite lookup_alter_eq, Hs. reflexivity.
    + rewrite lookup_alter_ne by congruence. reflexivity.
  - destruct (decide (c = ch)) as [-> | Hne]; [| reflexivity].
    rewrite Hs. reflexivity.
Qed.

(** X1. [listen] puts the callback in the set of the class's channel, after
    the callbacks that were there, which all stay in their order; a set
    without repetition stays so; the sets of the other channels are as they
    were. *)
Theorem listen_adds_callback w cls cb :
  let w' := snd (fst (listen (IOType := IOType) cls cb w)) in
  let ch := Sendable_channel (protos (mem w)) cls in
  cb ∈ callbacks_of (mgr w') ch
  ∧ callbacks_of (mgr w) ch `prefix_of` callbacks_of (mgr w') ch
  ∧ (NoDup (callbacks_of (mgr w) ch) -> NoDup (callbacks_of (mgr w') ch))
  ∧ ∀ c, c ≠ ch -> callbacks_of (mgr w') c = callbacks_of (mgr w) c.
Proof.
  intros w' ch. subst w'.
  split; [| split; [| split]].
  - rewrite listen_callbacks_of, decide_True by reflexivity. apply set_add_elem.
  - rewrite listen_callbacks_of, decide_True by reflexivity. apply set_add_prefix.
  - rewrite listen_callbacks_of, decide_True by reflexivity. apply set_add_NoDup.
  - intros c Hne. rewrite listen_callbacks_of, decide_False by exact Hne. reflexivity.
Qed.

(** X2. Listening twice with the same callback is listening once: the second
    call leaves the state the first one produced. *)
Theorem listen_twice_is_once w cls cb :
  let w1 := snd (fst (listen (IOType := IOType) cls cb w)) in
  listen (IOType := IOType) cls cb w1 = (Ok tt, w1, []).
Proof.
  intros w1. subst w1. unfold listen at 1. simpl.
  set (ch := Sendable_channel (protos (mem w)) cls).
  set (ls := match listeners (mgr w) !! ch with
             | Some _ => listeners (mgr w)
             | None => <[ch := []]> (listeners (mgr w))
             end).
  rewrite lookup_alter_eq.
  assert (is_Some (ls !! ch)) as [s Hs].
  { subst ls. destruct (listeners (mgr w) !! ch) eqn:E; [rewrite E; eauto |].
    rewrite lookup_insert_eq. eauto. }
  rewrite Hs. simpl.
  rewrite (alter_id (set_add cb) (alter (set_add cb) ch ls)).
  - reflexivity.
  - intros x. rewrite lookup_alter_eq, Hs. simpl. intros [= <-].
    unfold set_add at 1. rewrite decide_True by apply set_add_elem. reflexivity.
Qed.

(** X3. [stopListening] takes the callback out of the set of the class's
    channel and keeps every other callback, on that channel and on the
    others; a set without repetition stays so.  Where nothing listens on the
    channel the call changes nothing at all. *)
Theorem stopListening_removes_callback w cls cb :
  let w' := snd (fst (stopListening (IOType := IOType) cls cb w)) in
  let ch := Sendable_channel (protos (mem w)) cls in
  (cb ∉ callbacks_of (mgr w') ch)
  ∧ (∀ c cb', cb' ≠ cb ->
       cb' ∈ callbacks_of (mgr w') c ↔ cb' ∈ callbacks_of (mgr w) c)
  ∧ (NoDup (callbacks_of (mgr w) ch) -> NoDup (callbacks_of (mgr w') ch))
  ∧ (listeners (mgr w) !! ch = None -> stopListening (IOType := IOType) cls cb w = (Ok tt, w, [])).
Proof.
  intros w' ch. subst w'.
  split; [| split; [| split]].
  - rewrite stopListening_callbacks_of, decide_True by reflexivity.
    unfold set_delete. rewrite list_elem_of_filter. intros [H _]. apply H. reflexivity.
  - intros c cb' Hne. rewrite stopListening_callbacks_of.
    destruct (decide (c = _)); [| reflexivity].
    unfold set_delete. rewrite list_elem_of_filter.
    split; [intros [_ H]; exact H | intros H; split; [exact Hne | exact H]].
  - rewrite stopListening_callbacks_of, decide_True by reflexivity.
    apply NoDup_filter.
  - intros Hnone. unfold stopListening. fold ch. rewrite Hnone. reflexivity.
Qed.

(** X4. Listening and then stopping with a callback that was not registered
    on the channel gives every channel the callbacks it had. *)
Theorem listen_stopListening_restores w cls cb c :
  cb ∉ callbacks_of (mgr w) (Sendable_channel (protos (mem w)) cls) ->
  let w1 := snd (fst (listen (IOType := IOType) cls cb w)) in
  let w2 := snd (fst (stopListening (IOType := IOType) cls cb w1)) in
  callbacks_of (mgr w2) c = callbacks_of (mgr w) c.
Proof.
  intros Hnot w1 w2. subst w1 w2.
  rewrite stopListening_callbacks_of, listen_callbacks_of. simpl.
  destruct (decide (c = _)) as [-> | Hne]; [| reflexivity].
  apply set_delete_set_add. exact Hnot.
Qed.

(** ** Dispatch in general *)

Lemma scan_awaiters_hit_inv (m : Mem Payload) data (aws : list (Awaiter Payload)) :
  ∀ i0 j a,
    scan_awaiters m data aws i0 = ScanHit j a ->
    ∃ k, j = i0 + k
         ∧ aws !! k = Some a
         ∧ takes m data a
         ∧ Forall (λ b, ¬ takes m data b) (take k aws).
Proof.
  induction aws as [| b aws IH]; intros i0 j a; simpl; [discriminate |].
  assert (scan_awaiters m data aws (S i0) = ScanHit j a ->
          ¬ takes m data b ->
          ∃ k, j = i0 + k ∧ (b :: aws) !! k = Some a ∧ takes m data a
               ∧ Forall (λ b, ¬ takes m data b) (take k (b :: aws))) as Hnext.
  { intros Hscan Hb. destruct (IH _ _ _ Hscan) as (k & -> & Hk & Ha & Hpre).
    exists (S k). split; [lia |]. split; [exact Hk |]. split; [exact Ha |].
    simpl. constructor; assumption. }
  destruct (decide (channel b = get_channel m data)) as [Hc | Hc].
  - destruct (predicate b m data) as [[|] |] eqn:Hp.
    + intros [= <- <-]. exists 0. split; [lia |]. split; [reflexivity |].
      split; [split; assumption | constructor].
    + intros Hscan. apply Hnext; [exact Hscan |]. intros [_ Ht]. congruence.
    + discriminate.
  - intros Hscan. apply Hnext; [exact Hscan |]. intros [Ht _]. contradiction.
Qed.

Lemma run_callbacks_prefix (m : Mem Payload) data (cbs : list nat) :
  ∀ r (evs : list (Event IOType)),
    run_callbacks callback_run m data cbs = (r, evs) ->
    ∃ called,
      called `prefix_of` cbs
      ∧ evs = map (λ cb, EvCallback cb data) called
      ∧ (r = Ok tt -> called = cbs).
Proof.
  induction cbs as [| cb cbs IH]; intros r evs; simpl.
  - intros [= <- <-]. exists []. repeat split; reflexivity.
  - destruct (callback_run cb m data) as [e |].
    + intros [= <- <-]. exists [cb]. repeat split; [| discriminate].
      exists cbs. reflexivity.
    + destruct (run_callbacks callback_run m data cbs) as [r' evs'] eqn:Hrest.
      intros [= <- <-]. destruct (IH _ _ eq_refl) as (called & Hpre & -> & Hall).
      exists (cb :: called). repeat split.
      * apply (prefix_app [cb]). exact Hpre.
      * intros Hr. rewrite (Hall Hr). reflexivity.
Qed.

Lemma notifyListeners_cases w data r w' (evs : list (Event IOType)) :
  notifyListeners' data w = (r, w', evs) ->
  (∃ i a,
     awaiters (mgr w) !! i = Some a
     ∧ takes (mem w) data a
     ∧ Forall (λ b, ¬ takes (mem w) data b) (take i (awaiters (mgr w)))
     ∧ r = Ok tt
     ∧ w' = set_mgr w (with_awaiters (mgr w) (delete i (awaiters (mgr w))))
     ∧ evs = [EvResolve (resolve a) data])
  ∨ (w' = w
     ∧ ∃ called,
         called `prefix_of` callbacks_of (mgr w) (get_channel (mem w) data)
         ∧ evs = map (λ cb, EvCallback cb data) called
         ∧ (r = Ok tt -> called = callbacks_of (mgr w) (get_channel (mem w) data))).
Proof.
  unfold notifyListeners.
  destruct (scan_awaiters (mem w) data (awaiters (mgr w)) 0) as [| j a | e] eqn:Hscan.
  - unfold callbacks_of.
    destruct (listeners (mgr w) !! get_channel (mem w) data) as [cbs |]; simpl.
    + destruct (run_callbacks callback_run (mem w) data cbs) as [r' evs'] eqn:Hrun.
      intros [= <- <- <-]. right. split; [reflexivity |].
      exact (run_callbacks_prefix _ _ _ _ _ Hrun).
    + intros [= <- <- <-]. right. split; [reflexivity |].
      exists []. repeat split; reflexivity.
  - intros [= <- <- <-]. left.
    destruct (scan_awaiters_hit_inv _ _ _ _ _ _ Hscan) as (k & -> & Hk & Ha & Hpre).
    exists k, a. simpl. split; [exact Hk |]. split; [exact Ha |].
    split; [exact Hpre |]. repeat split.
  - intros [= <- <- <-]. right. split; [reflexivity |].
    exists []. repeat split; [apply prefix_nil | discriminate].
Qed.


(** X6. Once [stopListening] has returned, no message on the class's channel
    reaches the callback again, whatever else the dispatch does. *)
Theorem stopListening_then_never_called w cls cb data :
  get_channel (mem w) data = Sendable_channel (protos (mem w)) cls ->
  let w1 := snd (fst (stopListening (IOType := IOType) cls cb w)) in
  EvCallback cb data ∉ snd (notifyListeners (IOType := IOType) callback_run data w1).
Proof.
  intros Hch w1.
  destruct (notifyListeners' data w1) as [[r w'] evs] eqn:Hrun. simpl.
  assert (mem w1 = mem w) as Hmem.
  { subst w1. unfold stopListening. destruct (listeners (mgr w) !! _); reflexivity. }
  destruct (notifyListeners_cases _ _ _ _ _ Hrun)
    as [(i & a & _ & _ & _ & _ & _ & ->) | (_ & called & Hpre & -> & _)].
  - intros H. apply list_elem_of_singleton in H. discriminate.
  - intros H. apply list_elem_of_fmap in H as (cb' & [= <-] & Hin).
    destruct Hpre as [rest Hrest].
    assert (cb ∈ callbacks_of (mgr w1) (get_channel (mem w1) data)) as Hcb.
    { rewrite Hrest. apply elem_of_app. left. exact Hin. }
    subst w1. rewrite Hmem, Hch in Hcb.
    rewrite stopListening_callbacks_of, decide_True in Hcb by reflexivity.
    unfold set_delete in Hcb. apply list_elem_of_filter in Hcb as [Hne _].
    apply Hne. reflexivity.
Qed.

(** X7. An awaiter is good for one message.  On a manager whose pending
    awaiters all pass a message over, [awaitMessage] followed by the delivery
    of that message, which the new awaiter takes, resolves the new promise
    with it, calls no listener, and leaves the manager exactly as it was
    before the [awaitMessage]. *)
Theorem awaitMessage_consumed_by_first_match w cls pred resolver data :
  Forall (passes_over (mem w) data) (awaiters (mgr w)) ->
  get_channel (mem w) data = Sendable_channel (protos (mem w)) cls ->
  pred (mem w) data = Ok true ->
  let w1 := snd (fst (awaitMessage (IOType := IOType) cls pred resolver w)) in
  notifyListeners (IOType := IOType) callback_run data w1 = (Ok tt, w, [EvResolve resolver data]).
Proof.
  intros Hpass Hch Hpred w1. subst w1. unfold notifyListeners, awaitMessage. simpl.
  rewrite (scan_awaiters_hit _ _ (awaiters (mgr w)) _ [] 0 Hpass).
  - simpl. rewrite delete_middle, app_nil_r.
    destruct w as [m r [ls aws q b]]. reflexivity.
  - split; simpl; [symmetry; exact Hch | exact Hpred].
Qed.

(** X8. After [listen], a message on the class's channel that no awaiter
    takes reaches the callback, and reaches it once, however often [listen]
    was called before (callbacks returning normally). *)
Theorem listen_then_called_once w cls cb data :
  NoDup (callbacks_of (mgr w) (Sendable_channel (protos (mem w)) cls)) ->
  get_channel (mem w) data = Sendable_channel (protos (mem w)) cls ->
  Forall (passes_over (mem w) data) (awaiters (mgr w)) ->
  callback_run cb (mem w) data = None ->
  Forall (λ cb', callback_run cb' (mem w) data = None)
    (callbacks_of (mgr w) (Sendable_channel (protos (mem w)) cls)) ->
  let w1 := snd (fst (listen (IOType := IOType) cls cb w)) in
  ∃ evs,
    notifyListeners (IOType := IOType) callback_run data w1 = (Ok tt, w1, evs)
    ∧ EvCallback cb data ∈ evs
    ∧ NoDup evs.
Proof.
  intros Hnd Hch Hpass Hcb Hcbs w1.
  exists (map (λ cb', EvCallback cb' data)
            (callbacks_of (mgr w1) (get_channel (mem w1) data))).
  assert (callbacks_of (mgr w1) (get_channel (mem w1) data)
          = set_add cb (callbacks_of (mgr w) (Sendable_channel (protos (mem w)) cls)))
    as Hset.
  { subst w1. rewrite listen_callbacks_of. simpl. rewrite Hch, decide_True by reflexivity.
    reflexivity. }
  split; [| split].
  - unfold notifyListeners.
    replace (scan_awaiters (mem w1) data (awaiters (mgr w1)) 0) with (@ScanNone Payload)
      by (symmetry; apply (scan_awaiters_none (mem w) data _ 0 Hpass)).
    pose proof Hset as Hset'. unfold callbacks_of in Hset' |- *.
    destruct (listeners (mgr w1) !! get_channel (mem w1) data) as [cbs |]; simpl in *.
    + rewrite (run_callbacks_all callback_run (mem w) data cbs); [reflexivity |].
      rewrite Hset'. apply set_add_Forall; assumption.
    + reflexivity.
  - rewrite Hset. apply list_elem_of_fmap. exists cb. split; [reflexivity |].
    apply set_add_elem.
  - rewrite Hset. apply NoDup_fmap_2; [intros x y [= ->]; reflexivity |].
    apply set_add_NoDup. exact Hnd.
Qed.

End Listening.

(** * What each operation leaves alone *)

Section Frames.

Context {Payload IOType Validator CustomData : Type}.
Variable encode : gmap addr ProtoObj -> Obj Payload -> Res IOType.
Variable decode : Mem Payload -> IOType -> Res (Val * addr) * Mem Payload.
Variable finalize :
  Mem Payload -> addr -> Validator -> CustomData -> Res addr * Mem Payload.
Variable transmit : IOType -> option Err.
Variable intermediate_to_string : Mem Payload -> addr -> option Err.
Variable raw_to_string : IOType -> option Err.
Variable callback_run : nat -> Mem Payload -> addr -> option Err.

Implicit Types (w u : World Payload Validator CustomData) (data : addr).
Implicit Types (r : Res unit) (evs : list (Event IOType)) (q ms : list addr).

Local Abbreviation send' := (send encode transmit).
Local Abbreviation forEach_send' := (forEach_send encode transmit).
Local Abbreviation ready' := (ready encode transmit).
Local Abbreviation onData'' :=
  (onData decode finalize intermediate_to_string raw_to_string callback_run).

Lemma send_effects w data r w' evs :
  send' data w = (r, w', evs) ->
  entries w' = entries w
  ∧ listeners (mgr w') = listeners (mgr w)
  ∧ awaiters (mgr w') = awaiters (mgr w)
  ∧ isReady (mgr w') = isReady (mgr w)
  ∧ protos (mem w') = protos (mem w)
  ∧ (∀ b, b ≠ data -> objs (mem w') !! b = objs (mem w) !! b)
  ∧ o_proto <$> objs (mem w') !! data = o_proto <$> objs (mem w) !! data
  ∧ o_fields <$> objs (mem w') !! data = o_fields <$> objs (mem w) !! data
  ∧ (if isReady (mgr w)
     then queue (mgr w') = queue (mgr w) ∧ (evs = [] ∨ ∃ io, evs = [EvTransmit io])
     else mem w' = mem w ∧ evs = []
          ∧ (queue (mgr w') = queue (mgr w) ∨ queue (mgr w') = queue (mgr w) ++ [data])).
Proof.
  unfold send.
  destruct (entries w !! get_channel (mem w) data) as [entry |].
  2: { intros [= <- <- <-]. repeat split; try reflexivity.
       destruct (isReady (mgr w)); repeat split; auto. }
  destruct (isReady (mgr w)) eqn:Hr; simpl.
  2: { intros [= <- <- <-]. simpl. rewrite Hr. repeat split; auto. }
  destruct (objs (mem w) !! data) as [o |] eqn:Ho.
  2: { intros [= <- <- <-]. rewrite Hr, Ho. repeat split; auto. }
  destruct (stamp (protos (mem w)) o) as [o' | e] eqn:Hst.
  2: { intros [= <- <- <-]. rewrite Hr, Ho. repeat split; auto. }
  destruct (stamp_inv _ _ _ Hst) as (p & Hp & ->).
  assert (∀ (r0 : Res unit) (evs0 : list (Event IOType)),
            (evs0 = [] ∨ ∃ io, evs0 = [EvTransmit io]) ->
            (r0, stamped_world w data
                   {| o_channel := Some (proto_channel (protos (mem w)) p);
                      o_proto := Some p; o_fields := o_fields o |}, evs0)
            = (r, w', evs) ->
            entries w' = entries w
            ∧ listeners (mgr w') = listeners (mgr w)
            ∧ awaiters (mgr w') = awaiters (mgr w)
            ∧ isReady (mgr w') = true
            ∧ protos (mem w') = protos (mem w)
            ∧ (∀ b, b ≠ data -> objs (mem w') !! b = objs (mem w) !! b)
            ∧ o_proto <$> objs (mem w') !! data = o_proto <$> Some o
            ∧ o_fields <$> objs (mem w') !! data = o_fields <$> Some o
            ∧ queue (mgr w') = queue (mgr w)
              ∧ (evs = [] ∨ ∃ io, evs = [EvTransmit io])) as Hdone.
  { intros r0 evs0 Hevs [= <- <- <-]. unfold stamped_world. simpl.
    rewrite lookup_insert_eq. simpl. rewrite Hp.
    repeat split; try reflexivity; try assumption.
    intros b Hb. rewrite lookup_insert_ne by congruence. reflexivity. }
  destruct (encode _ _) as [encoded | e].
  - destruct (transmit encoded); apply Hdone; right; eauto.
  - apply Hdone. left. reflexivity.
Qed.

(** X9. [send] changes nothing but the queue, and that only on a manager that
    is not ready, or the sent object, and that only on a ready manager and
    only in its [channel]: registry, listeners, awaiters, ready flag,
    prototypes, every other object, and the sent object's prototype and
    fields are as before.  It calls [transmit] at most once, and never when
    the manager is not ready. *)
Theorem send_frame w data r w' evs :
  send encode transmit data w = (r, w', evs) ->
  entries w' = entries w
  ∧ listeners (mgr w') = listeners (mgr w)
  ∧ awaiters (mgr w') = awaiters (mgr w)
  ∧ isReady (mgr w') = isReady (mgr w)
  ∧ protos (mem w') = protos (mem w)
  ∧ (∀ b, b ≠ data -> objs (mem w') !! b = objs (mem w) !! b)
  ∧ o_proto <$> objs (mem w') !! data = o_proto <$> objs (mem w) !! data
  ∧ o_fields <$> objs (mem w') !! data = o_fields <$> objs (mem w) !! data
  ∧ (if isReady (mgr w)
     then queue (mgr w') = queue (mgr w) ∧ (evs = [] ∨ ∃ io, evs = [EvTransmit io])
     else mem w' = mem w ∧ evs = []
          ∧ (queue (mgr w') = queue (mgr w) ∨ queue (mgr w') = queue (mgr w) ++ [data])).
Proof. exact (send_effects w data r w' evs). Qed.

Lemma notifyListeners_frame w data r w' evs :
  notifyListeners callback_run data w = (r, w', evs) ->
  mem w' = mem w
  ∧ entries w' = entries w
  ∧ listeners (mgr w') = listeners (mgr w)
  ∧ queue (mgr w') = queue (mgr w)
  ∧ isReady (mgr w') = isReady (mgr w)
  ∧ (awaiters (mgr w') = awaiters (mgr w)
     ∨ ∃ i, i < length (awaiters (mgr w))
            ∧ awaiters (mgr w') = delete i (awaiters (mgr w)))
  ∧ ∀ io, EvTransmit io ∉ evs.
Proof.
  unfold notifyListeners.
  destruct (scan_awaiters (mem w) data (awaiters (mgr w)) 0) as [| j a | e] eqn:Hscan.
  - destruct (listeners (mgr w) !! get_channel (mem w) data) as [cbs |].
    + destruct (run_callbacks callback_run (mem w) data cbs) as [r' evs'] eqn:Hrun.
      intros [= <- <- <-]. repeat split; auto.
      destruct (run_callbacks_prefix _ _ _ _ _ _ Hrun) as (called & _ & -> & _).
      intros io Hin. apply list_elem_of_fmap in Hin as (cb & Hcb & _). discriminate.
    + intros [= <- <- <-]. repeat split; auto. intros io Hin. inversion Hin.
  - intros [= <- <- <-]. simpl. repeat split; auto.
    + right. destruct (scan_awaiters_hit_inv _ _ _ _ _ _ Hscan) as (k & -> & Hk & _).
      exists k. split; [| reflexivity]. apply lookup_lt_Some in Hk. exact Hk.
    + intros io Hin. apply list_elem_of_singleton in Hin. discriminate.
  - intros [= <- <- <-]. repeat split; auto. intros io Hin. inversion Hin.
Qed.

Lemma warn_frame w (conversions : list (option Err)) wn r w' evs :
  warn conversions wn w = (r, w', evs) ->
  w' = w ∧ ∀ io, EvTransmit io ∉ evs.
Proof.
  unfold warn. destruct (first_throw conversions); intros [= <- <- <-].
  - split; [reflexivity |]. intros io Hin. inversion Hin.
  - split; [reflexivity |]. intros io Hin.
    apply list_elem_of_singleton in Hin. discriminate.
Qed.

Lemma onData_effects w (raw : IOType) r w' evs :
  onData'' raw w = (r, w', evs) ->
  entries w' = entries w
  ∧ listeners (mgr w') = listeners (mgr w)
  ∧ queue (mgr w') = queue (mgr w)
  ∧ isReady (mgr w') = isReady (mgr w)
  ∧ (awaiters (mgr w') = awaiters (mgr w)
     ∨ ∃ i, i < length (awaiters (mgr w))
            ∧ awaiters (mgr w') = delete i (awaiters (mgr w)))
  ∧ ∀ io, EvTransmit io ∉ evs.
Proof.
  assert (∀ m conversions wn,
            warn conversions wn (set_mem w m) = (r, w', evs) ->
            entries w' = entries w
            ∧ listeners (mgr w') = listeners (mgr w)
            ∧ queue (mgr w') = queue (mgr w)
            ∧ isReady (mgr w') = isReady (mgr w)
            ∧ (awaiters (mgr w') = awaiters (mgr w)
               ∨ ∃ i, i < length (awaiters (mgr w))
                      ∧ awaiters (mgr w') = delete i (awaiters (mgr w)))
            ∧ ∀ io, EvTransmit io ∉ evs) as Hwarn.
  { intros m conversions wn H. apply warn_frame in H as [-> Hevs].
    repeat split; auto. }
  unfold onData.
  destruct (decode (mem w) raw) as [[[v i] | e] m1]; [| apply Hwarn].
  destruct v; try apply Hwarn.
  destruct (entries w !! Some s) as [[[cls strats] cd] |]; [| apply Hwarn].
  destruct (finalize m1 i strats cd) as [[decoded | e] m2]; [| apply Hwarn].
  intros H. apply notifyListeners_frame in H.
  destruct H as (_ & He & Hl & Hq & Hr & Ha & Hevs). repeat split; assumption.
Qed.


(** ** The drain in general *)

Lemma send_ready_result w data r w' evs :
  isReady (mgr w) = true ->
  send' data w = (r, w', evs) ->
  mgr w' = mgr w
  ∧ entries w' = entries w
  ∧ length evs ≤ 1
  ∧ Forall (λ ev, ∃ io, ev = EvTransmit io) evs
  ∧ (r = Ok tt -> length evs = 1).
Proof.
  intros Hr. unfold send. rewrite Hr. simpl.
  destruct (entries w !! _); [| intros [= <- <- <-]; repeat split; auto; discriminate].
  destruct (objs (mem w) !! data);
    [| intros [= <- <- <-]; repeat split; auto; discriminate].
  destruct (stamp _ _); [| intros [= <- <- <-]; repeat split; auto; discriminate].
  destruct (encode _ _) as [encoded |];
    [| intros [= <- <- <-]; repeat split; auto; discriminate].
  destruct (transmit encoded); intros [= <- <- <-]; repeat split; eauto.
Qed.

Lemma forEach_send_ready_result q : ∀ w r w' evs,
  isReady (mgr w) = true ->
  forEach_send' q w = (r, w', evs) ->
  mgr w' = mgr w
  ∧ entries w' = entries w
  ∧ length evs ≤ length q
  ∧ Forall (λ ev, ∃ io, ev = EvTransmit io) evs
  ∧ (r = Ok tt -> length evs = length q).
Proof.
  induction q as [| a q IH]; intros w r w' evs Hr; simpl.
  - intros [= <- <- <-]. repeat split; auto.
  - destruct (send' a w) as [[[[] | e] w1] evs1] eqn:Hsend;
      destruct (send_ready_result _ _ _ _ _ Hr Hsend) as (Hm1 & He1 & Hl1 & Ht1 & Hok1).
    + destruct (forEach_send' q w1) as [[r2 w2] evs2] eqn:Hrest.
      intros [= <- <- <-].
      destruct (IH w1 r2 w2 evs2) as (Hm2 & He2 & Hl2 & Ht2 & Hok2);
        [rewrite Hm1; exact Hr | exact Hrest |].
      rewrite length_app. repeat split.
      * congruence.
      * congruence.
      * lia.
      * apply Forall_app. split; assumption.
      * intros Hr2. rewrite (Hok1 eq_refl), (Hok2 Hr2). reflexivity.
    + intros [= <- <- <-]. repeat split; auto; [lia | discriminate].
Qed.

Lemma ready_effects w r w' evs :
  ready' w = (r, w', evs) ->
  isReady (mgr w') = true
  ∧ entries w' = entries w
  ∧ listeners (mgr w') = listeners (mgr w)
  ∧ awaiters (mgr w') = awaiters (mgr w)
  ∧ Forall (λ ev, ∃ io, ev = EvTransmit io) evs
  ∧ match r with
    | Ok _ => queue (mgr w') = [] ∧ length evs = length (queue (mgr w))
    | Throw _ => queue (mgr w') = queue (mgr w) ∧ length evs ≤ length (queue (mgr w))
    end.
Proof.
  unfold ready.
  destruct (forEach_send' _ _) as [[[[] | e] w2] evs2] eqn:Hdrain;
    intros [= <- <- <-];
    destruct (forEach_send_ready_result _ (set_mgr w (with_isReady (mgr w) true))
                _ _ _ eq_refl Hdrain)
      as (Hm & He & Hl & Ht & Hok); simpl in *.
  - rewrite Hm. simpl. repeat split; auto.
  - rewrite Hm. simpl. repeat split; auto.
Qed.

(** X11. However the drain goes, [ready] leaves the manager ready, with its
    registry, listeners and awaiters untouched, and has done nothing but
    transmit.  If it returns normally it has transmitted exactly as many
    times as messages were queued and the queue is empty; if it throws, the
    queue holds exactly the messages it held, including those already
    transmitted. *)
Theorem ready_outcome w r w' evs :
  ready encode transmit w = (r, w', evs) ->
  isReady (mgr w') = true
  ∧ entries w' = entries w
  ∧ listeners (mgr w') = listeners (mgr w)
  ∧ awaiters (mgr w') = awaiters (mgr w)
  ∧ Forall (λ ev, ∃ io, ev = EvTransmit io) evs
  ∧ match r with
    | Ok _ => queue (mgr w') = [] ∧ length evs = length (queue (mgr w))
    | Throw _ => queue (mgr w') = queue (mgr w) ∧ length evs ≤ length (queue (mgr w))
    end.
Proof. exact (ready_effects w r w' evs). Qed.

(** Two worlds with the same objects, prototypes and registry. *)
Lemma send_ready_same_store w u data r w' evs :
  isReady (mgr w) = true -> isReady (mgr u) = true ->
  mem w = mem u -> entries w = entries u ->
  send' data w = (r, w', evs) ->
  ∃ u', send' data u = (r, u', evs) ∧ mem w' = mem u' ∧ entries w' = entries u'.
Proof.
  intros Hw Hu Hmem Hent. unfold send. rewrite Hw, Hu, <- Hmem, <- Hent. simpl.
  destruct (entries w !! _); [| intros [= <- <- <-]; eauto].
  destruct (objs (mem w) !! data); [| intros [= <- <- <-]; eauto].
  destruct (stamp _ _); [| intros [= <- <- <-]; eauto].
  destruct (encode _ _) as [encoded |]; [| intros [= <- <- <-]; eauto].
  destruct (transmit encoded); intros [= <- <- <-]; eauto.
Qed.

Lemma forEach_send_ready_same_store q : ∀ w u r w' evs,
  isReady (mgr w) = true -> isReady (mgr u) = true ->
  mem w = mem u -> entries w = entries u ->
  forEach_send' q w = (r, w', evs) ->
  ∃ u', forEach_send' q u = (r, u', evs) ∧ mem w' = mem u' ∧ entries w' = entries u'.
Proof.
  induction q as [| a q IH]; intros w u r w' evs Hw Hu Hmem Hent; simpl.
  - intros [= <- <- <-]. eauto.
  - destruct (send' a w) as [[[[] | e] w1] evs1] eqn:Hsend;
      destruct (send_ready_same_store _ _ _ _ _ _ Hw Hu Hmem Hent Hsend)
        as (u1 & Hsend' & Hmem1 & Hent1); rewrite Hsend'.
    + destruct (forEach_send' q w1) as [[r2 w2] evs2] eqn:Hrest.
      intros [= <- <- <-].
      destruct (send_ready_result _ _ _ _ _ Hw Hsend) as (Hm1 & _).
      destruct (send_ready_result _ _ _ _ _ Hu Hsend') as (Hm1' & _).
      destruct (IH w1 u1 r2 w2 evs2) as (u2 & Hrest' & Hmem2 & Hent2);
        [congruence | congruence | assumption | assumption | exact Hrest |].
      rewrite Hrest'. eauto.
    + intros [= <- <- <-]. eauto.
Qed.

(** X12. Queueing is transparent.  For messages that carry registered
    channels, sending them to a fresh manager before [ready] and letting
    [ready] drain them has the same result, the same transmissions and the
    same effect on the objects as calling [ready] first and sending them
    afterwards; when no call throws, the two final states are equal. *)
Theorem queue_then_ready_is_ready_then_send w ms :
  isReady (mgr w) = false ->
  queue (mgr w) = [] ->
  Forall (registered w) ms ->
  let queued := ready encode transmit (snd (fst (forEach_send encode transmit ms w))) in
  let direct := forEach_send encode transmit ms (snd (fst (ready encode transmit w))) in
  fst (fst queued) = fst (fst direct)
  ∧ snd queued = snd direct
  ∧ mem (snd (fst queued)) = mem (snd (fst direct))
  ∧ (fst (fst queued) = Ok tt -> snd (fst queued) = snd (fst direct)).
Proof.
  intros Hnr Hq Hreg queued direct. subst queued direct.
  rewrite (forEach_send_queues encode transmit ms w Hnr Hreg). simpl.
  destruct w as [m e [ls aws q b]]. simpl in *. subst q b.
  unfold ready, set_mgr, with_queue, with_isReady. cbn.
  set (wq := {| mem := m; entries := e;
                mgr := {| listeners := ls; awaiters := aws; queue := ms;
                          isReady := true |} |}).
  set (wd := {| mem := m; entries := e;
                mgr := {| listeners := ls; awaiters := aws; queue := [];
                          isReady := true |} |}).
  destruct (forEach_send' ms wq) as [[r w'] evs] eqn:Hdrain.
  destruct (forEach_send_ready_same_store ms wq wd r w' evs
              eq_refl eq_refl eq_refl eq_refl Hdrain) as (u' & Hdirect & Hmem & Hent).
  rewrite Hdirect.
  destruct (forEach_send_ready_result ms wq _ _ _ eq_refl Hdrain) as (Hm & _).
  destruct (forEach_send_ready_result ms wd _ _ _ eq_refl Hdirect) as (Hm' & _).
  destruct r as [[] | err]; simpl.
  - repeat split; [exact Hmem |]. intros _.
    destruct w' as [m1 e1 g1], u' as [m2 e2 g2]. simpl in *. subst. reflexivity.
  - repeat split; [exact Hmem |]. discriminate.
Qed.

End Frames.

(** * More on registration *)

Section Registering.

Context {Payload IOType Validator CustomData : Type}.

Implicit Types (w : World Payload Validator CustomData) (cls sub other : Class).
Implicit Types (P : gmap addr ProtoObj).

Local Abbreviation MakeSendable' := (MakeSendable (IOType := IOType)).

(** The world [MakeSendable] produces. *)
Lemma MakeSendable_world w c strategy customData cls :
  is_Some (protos (mem w) !! cls_prototype cls) ->
  MakeSendable' c strategy customData cls w
  = (Ok tt,
     set_entries (set_mem w (set_proto_channel (mem w) (cls_prototype cls) c))
       (<[Some c := (cls, strategy, customData)]> (entries w)),
     []).
Proof.
  intros Hp. unfold MakeSendable, register. cbn [mem set_mem entries].
  rewrite (Sendable_channel_set_proto_channel (mem w) cls c Hp). reflexivity.
Qed.

Lemma proto_channel_set_other (m : Mem Payload) p q c po v :
  protos m !! q = Some po ->
  p_channel po = Some v ->
  q ≠ p ->
  proto_channel (protos (set_proto_channel m p c)) q = v.
Proof.
  intros Hq Hv Hne. eapply proto_channel_own; [| exact Hv].
  unfold set_proto_channel. simpl. rewrite lookup_alter_ne by congruence. exact Hq.
Qed.

(** X13. Registering a class changes nothing for the others: a class whose
    prototype carries a channel of its own still reports it, every registry
    entry under another key is as it was, and no message object is touched. *)
Theorem MakeSendable_keeps_other_classes w c strategy customData cls other po v :
  is_Some (protos (mem w) !! cls_prototype cls) ->
  protos (mem w) !! cls_prototype other = Some po ->
  p_channel po = Some v ->
  cls_prototype other ≠ cls_prototype cls ->
  let w' := snd (fst (MakeSendable (IOType := IOType) c strategy customData cls w)) in
  Sendable_channel (protos (mem w')) other = v
  ∧ (∀ k, k ≠ Some c -> entries w' !! k = entries w !! k)
  ∧ objs (mem w') = objs (mem w).
Proof.
  intros Hp Ho Hv Hne w'. subst w'. rewrite (MakeSendable_world _ _ _ _ _ Hp). simpl.
  split; [| split].
  - exact (proto_channel_set_other (mem w) _ _ c po v Ho Hv Hne).
  - intros k Hk. rewrite lookup_insert_ne by congruence. reflexivity.
  - reflexivity.
Qed.

(** X14. Two classes registered under one channel: the registry keeps the
    entry of the second, silently, while both classes report the channel. *)
Theorem MakeSendable_same_channel_last_wins w c s1 d1 s2 d2 cls other :
  is_Some (protos (mem w) !! cls_prototype cls) ->
  is_Some (protos (mem w) !! cls_prototype other) ->
  cls_prototype other ≠ cls_prototype cls ->
  let w1 := snd (fst (MakeSendable (IOType := IOType) c s1 d1 cls w)) in
  let w2 := snd (fst (MakeSendable (IOType := IOType) c s2 d2 other w1)) in
  entries w2 !! Some c = Some (other, s2, d2)
  ∧ Sendable_channel (protos (mem w2)) cls = Some c
  ∧ Sendable_channel (protos (mem w2)) other = Some c.
Proof.
  intros Hp [po Ho] Hne w1 w2.
  assert (is_Some (protos (mem w1) !! cls_prototype other)) as Ho1.
  { subst w1. rewrite (MakeSendable_world _ _ _ _ _ Hp). simpl.
    rewrite lookup_alter_ne by congruence. eauto. }
  assert (∃ po1, protos (mem w1) !! cls_prototype cls = Some po1
                 ∧ p_channel po1 = Some (Some c)) as (po1 & Hpo1 & Hc1).
  { subst w1. rewrite (MakeSendable_world _ _ _ _ _ Hp). simpl.
    destruct Hp as [pc Hpc]. rewrite lookup_alter_eq, Hpc. simpl. eauto. }
  subst w2. rewrite (MakeSendable_world _ _ _ _ _ Ho1). simpl.
  split; [apply lookup_insert_eq |]. split.
  - apply (proto_channel_set_other (mem w1) _ _ c po1 (Some c) Hpo1 Hc1).
    congruence.
  - apply (Sendable_channel_set_proto_channel (mem w1) other c Ho1).
Qed.

(** X15. Registering a class again under another channel moves the class but
    not its old entry: the class reports the new channel, the registry has
    the class under the new key, and still has it under the old one. *)
Theorem MakeSendable_again_keeps_old_entry w c1 c2 s1 d1 s2 d2 cls :
  is_Some (protos (mem w) !! cls_prototype cls) ->
  c1 ≠ c2 ->
  let w1 := snd (fst (MakeSendable (IOType := IOType) c1 s1 d1 cls w)) in
  let w2 := snd (fst (MakeSendable (IOType := IOType) c2 s2 d2 cls w1)) in
  Sendable_channel (protos (mem w2)) cls = Some c2
  ∧ entries w2 !! Some c2 = Some (cls, s2, d2)
  ∧ entries w2 !! Some c1 = Some (cls, s1, d1).
Proof.
  intros Hp Hne w1 w2. subst w2.
  pose proof (MakeSendable_world w c1 s1 d1 cls Hp) as Hw1.
  apply (f_equal (λ x, snd (fst x))) in Hw1. fold w1 in Hw1. simpl in Hw1.
  clearbody w1.
  assert (is_Some (protos (mem w1) !! cls_prototype cls)) as Hp1.
  { rewrite Hw1. simpl. destruct Hp as [pc Hpc].
    rewrite lookup_alter_eq, Hpc. simpl. eauto. }
  rewrite (MakeSendable_world _ _ _ _ _ Hp1). simpl.
  split; [apply (Sendable_channel_set_proto_channel (mem w1) cls c2 Hp1) |].
  split; [apply lookup_insert_eq |].
  rewrite lookup_insert_ne by congruence.
  rewrite Hw1. simpl. apply lookup_insert_eq.
Qed.

(** X16. A subclass that was not registered itself inherits the channel of
    its registered parent: the class reports it and so do its instances. *)
Theorem unregistered_subclass_inherits_channel P sub cls po c a fields
    (objects : gmap addr (Obj Payload)) :
  P !! cls_prototype sub
    = Some {| p_channel := None; p_parent := Some (cls_prototype cls) |} ->
  P !! cls_prototype cls = Some po ->
  p_channel po = Some c ->
  Sendable_channel P sub = c
  ∧ get_channel {| protos := P; objs := <[a := construct sub fields]> objects |} a = c.
Proof.
  intros Hsub Hcls Hc.
  assert (Sendable_channel P sub = c) as Hch.
  { unfold Sendable_channel, proto_channel.
    destruct (size P) as [| n] eqn:Hsize.
    - exfalso. apply (map_size_ne_0_lookup_2 P (cls_prototype cls)); eauto.
    - simpl. rewrite Hsub. simpl. rewrite Hcls, Hc. reflexivity. }
  split; [exact Hch |].
  unfold get_channel. simpl. rewrite lookup_insert_eq. simpl. exact Hch.
Qed.

End Registering.

(** * The JSON manager *)

Section JSONReceiving.

Context {Payload : Type}.
Variable parse : Mem Payload -> string -> Res addr * Mem Payload.
Variable intermediate_to_string : Mem Payload -> addr -> option Err.
Variable raw_to_string : string -> option Err.
Variable callback_run : nat -> Mem Payload -> addr -> option Err.

Implicit Types (w : World Payload (Mem Payload -> addr -> bool) unit).
Implicit Types (raw : string) (o : Obj Payload).

Local Abbreviation JSON_onData :=
  (onData (JSONListenerManager_decode parse) JSONListenerManager_finalize
     intermediate_to_string raw_to_string callback_run).

Lemma JSON_decode_tagged w raw i m1 o c :
  parse (mem w) raw = (Ok i, m1) ->
  objs m1 !! i = Some o ->
  o_channel o = Some (Some c) ->
  JSONListenerManager_decode parse (mem w) raw = (Ok (VStr c, i), m1).
Proof.
  intros Hparse Ho Hc. unfold JSONListenerManager_decode, channel_value, get_channel.
  rewrite Hparse, Ho, Hc. reflexivity.
Qed.

Lemma JSON_onData_accepted w raw i m1 o c cls check u :
  parse (mem w) raw = (Ok i, m1) ->
  objs m1 !! i = Some o ->
  o_channel o = Some (Some c) ->
  entries w !! Some c = Some (cls, check, u) ->
  check m1 i = true ->
  JSON_onData raw w
  = notifyListeners callback_run i
      (set_mem w (setPrototypeOf m1 i (cls_prototype cls))).
Proof.
  intros Hparse Ho Hc Hreg Hcheck. unfold onData.
  rewrite (JSON_decode_tagged _ _ _ _ _ _ Hparse Ho Hc), Hreg.
  unfold JSONListenerManager_finalize, JSON_finalize. rewrite Hcheck. reflexivity.
Qed.

Lemma get_channel_setPrototypeOf_tagged (m : Mem Payload) i o c p :
  objs m !! i = Some o ->
  o_channel o = Some (Some c) ->
  get_channel (setPrototypeOf m i p) i = Some c.
Proof.
  intros Ho Hc. unfold get_channel, setPrototypeOf. simpl.
  rewrite lookup_alter_eq, Ho. simpl. rewrite Hc. reflexivity.
Qed.

(** X17. The JSON manager hands the dispatch engine the very object it
    parsed, once the validator registered for its channel has accepted it:
    the object now has the prototype of the registered class, and its fields
    and its channel are those of the text. *)
Theorem JSON_onData_dispatches_parsed_object w raw i m1 o c cls check u :
  parse (mem w) raw = (Ok i, m1) ->
  objs m1 !! i = Some o ->
  o_channel o = Some (Some c) ->
  entries w !! Some c = Some (cls, check, u) ->
  check m1 i = true ->
  let w1 := set_mem w (setPrototypeOf m1 i (cls_prototype cls)) in
  onData (JSONListenerManager_decode parse) JSONListenerManager_finalize
    intermediate_to_string raw_to_string callback_run raw w = notifyListeners callback_run i w1
  ∧ objs (mem w1) !! i
    = Some {| o_channel := Some (Some c);
              o_proto := Some (cls_prototype cls);
              o_fields := o_fields o |}
  ∧ get_channel (mem w1) i = Some c.
Proof.
  intros Hparse Ho Hc Hreg Hcheck w1. split; [| split].
  - exact (JSON_onData_accepted _ _ _ _ _ _ _ _ _ Hparse Ho Hc Hreg Hcheck).
  - subst w1. simpl. rewrite lookup_alter_eq, Ho. simpl. rewrite Hc. reflexivity.
  - exact (get_channel_setPrototypeOf_tagged m1 i o c _ Ho Hc).
Qed.

(** X18. A message the validator rejects never reaches the dispatch engine of
    the JSON manager: nothing is resolved, no callback runs, the manager is
    as it was, and the rejected object keeps the prototype it was parsed
    with. *)
Theorem JSON_onData_rejected_not_dispatched w raw i m1 o c cls check u :
  parse (mem w) raw = (Ok i, m1) ->
  objs m1 !! i = Some o ->
  o_channel o = Some (Some c) ->
  entries w !! Some c = Some (cls, check, u) ->
  check m1 i = false ->
  ∃ r evs,
    onData (JSONListenerManager_decode parse) JSONListenerManager_finalize
    intermediate_to_string raw_to_string callback_run raw w = (r, set_mem w m1, evs)
    ∧ (evs = [] ∨ evs = [EvWarn (WarnFinalizeFailed ErrTypeCheck)]).
Proof.
  intros Hparse Ho Hc Hreg Hcheck. unfold onData.
  rewrite (JSON_decode_tagged _ _ _ _ _ _ Hparse Ho Hc), Hreg.
  unfold JSONListenerManager_finalize, JSON_finalize. rewrite Hcheck. simpl.
  unfold warn. destruct (first_throw _); eauto.
Qed.

(** X19. From [listen] to the callback: on a JSON manager without pending
    awaiters, after [listen] for a class, a text whose [channel] member is the
    class's channel and which the registered validator accepts makes the
    callback run on the parsed object, and [onData] returns normally
    (callbacks returning normally). *)
Theorem JSON_listen_then_onData_calls_back w cls_listened cb raw i m1 o c cls check u :
  Sendable_channel (protos (mem w)) cls_listened = Some c ->
  awaiters (mgr w) = [] ->
  parse (mem w) raw = (Ok i, m1) ->
  objs m1 !! i = Some o ->
  o_channel o = Some (Some c) ->
  entries w !! Some c = Some (cls, check, u) ->
  check m1 i = true ->
  (let m := setPrototypeOf m1 i (cls_prototype cls) in
   callback_run cb m i = None
   ∧ Forall (λ cb', callback_run cb' m i = None) (callbacks_of (mgr w) (Some c))) ->
  let w0 := snd (fst (listen (IOType := string) cls_listened cb w)) in
  ∃ w' evs,
    onData (JSONListenerManager_decode parse) JSONListenerManager_finalize
    intermediate_to_string raw_to_string callback_run raw w0 = (Ok tt, w', evs)
    ∧ EvCallback cb i ∈ evs.
Proof.
  intros Hch Haw Hparse Ho Hc Hreg Hcheck [Hcb Hcbs] w0.
  assert (JSON_onData raw w0
          = notifyListeners callback_run i
              (set_mem w0 (setPrototypeOf m1 i (cls_prototype cls)))) as ->.
  { apply (JSON_onData_accepted w0 raw i m1 o c cls check u); assumption. }
  set (w1 := set_mem w0 (setPrototypeOf m1 i (cls_prototype cls))).
  assert (get_channel (mem w1) i = Some c) as Hget
    by exact (get_channel_setPrototypeOf_tagged m1 i o c _ Ho Hc).
  assert (callbacks_of (mgr w1) (Some c) = set_add cb (callbacks_of (mgr w) (Some c)))
    as Hset.
  { change (mgr w1) with (mgr (snd (fst (listen (IOType := string) cls_listened cb w)))).
    rewrite listen_callbacks_of, Hch, decide_True by reflexivity. reflexivity. }
  unfold notifyListeners.
  change (awaiters (mgr w1)) with (awaiters (mgr w)). rewrite Haw.
  cbn [scan_awaiters]. rewrite Hget. unfold callbacks_of in Hset.
  destruct (listeners (mgr w1) !! Some c) as [cbs |] eqn:Hcbs1; simpl in Hset.
  - rewrite (run_callbacks_all callback_run (mem w1) i cbs).
    + eexists _, _. split; [reflexivity |].
      apply list_elem_of_fmap. exists cb. split; [reflexivity |].
      rewrite Hset. apply set_add_elem.
    + rewrite Hset. apply set_add_Forall; assumption.
  - exfalso. pose proof (set_add_elem cb (default [] (listeners (mgr w) !! Some c))) as Hin.
    rewrite <- Hset in Hin. inversion Hin.
Qed.

End JSONReceiving.

(** * The internal manager *)

Section InternalProperties.

Context {Payload Validator : Type}.
Variable transmit : Mem Payload -> addr -> option Err.
Variable data_to_string : Mem Payload -> addr -> option Err.
Variable callback_run : nat -> Mem Payload -> addr -> option Err.

Implicit Types (w : World Payload Validator unit) (data : addr).
Implicit Types (r : Res unit) (evs : list (Event addr)) (q : list addr).

Local Abbreviation isend := (Internal_send (Validator := Validator) transmit).
Local Abbreviation idrain := (Internal_forEach_send (Validator := Validator) transmit).
Local Abbreviation iready := (Internal_ready (Validator := Validator) transmit).
Local Abbreviation ionData :=
  (Internal_onData (Validator := Validator) data_to_string callback_run).

Lemma Internal_send_ready_result w data r w' evs :
  isReady (mgr w) = true ->
  isend data w = (r, w', evs) ->
  mgr w' = mgr w
  ∧ entries w' = entries w
  ∧ match r with
    | Ok _ => evs = [EvTransmit data]
    | Throw _ => evs = [] ∨ evs = [EvTransmit data]
    end.
Proof.
  intros Hr. unfold Internal_send. rewrite Hr. simpl.
  destruct (entries w !! _); [| intros [= <- <- <-]; auto].
  destruct (objs (mem w) !! data); [| intros [= <- <- <-]; auto].
  destruct (stamp _ _); [| intros [= <- <- <-]; auto].
  destruct (transmit _ data); intros [= <- <- <-]; auto.
Qed.

Lemma Internal_forEach_send_ready_result q : ∀ w r w' evs,
  isReady (mgr w) = true ->
  idrain q w = (r, w', evs) ->
  mgr w' = mgr w
  ∧ entries w' = entries w
  ∧ match r with
    | Ok _ => evs = map EvTransmit q
    | Throw _ => ∃ n, n ≤ length q ∧ evs = map EvTransmit (take n q)
    end.
Proof.
  induction q as [| a q IH]; intros w r w' evs Hr; simpl.
  - intros [= <- <- <-]. auto.
  - destruct (isend a w) as [[[[] | e] w1] evs1] eqn:Hsend;
      destruct (Internal_send_ready_result _ _ _ _ _ Hr Hsend) as (Hm1 & He1 & Hev1).
    + destruct (idrain q w1) as [[r2 w2] evs2] eqn:Hrest.
      intros [= <- <- <-].
      destruct (IH w1 r2 w2 evs2) as (Hm2 & He2 & Hev2);
        [rewrite Hm1; exact Hr | exact Hrest |].
      subst evs1. split; [congruence |]. split; [congruence |].
      destruct r2 as [[] | e2].
      * rewrite Hev2. reflexivity.
      * destruct Hev2 as (n & Hn & ->). exists (S n). split; [lia | reflexivity].
    + intros [= <- <- <-]. split; [exact Hm1 |]. split; [exact He1 |].
      destruct Hev1 as [-> | ->].
      * exists 0. split; [lia | reflexivity].
      * exists 1. split; [simpl; lia | reflexivity].
Qed.

(** X20. The internal manager's [ready] leaves the manager ready, whatever
    happens.  If it returns normally it has handed [transmit] exactly the
    queued messages, each once and in the order they were queued, and the
    queue is empty.  If it throws it has handed over the first few of them,
    in order, and the queue is what it was. *)
Theorem Internal_ready_transmits_queue_in_order w r w' evs :
  Internal_ready transmit w = (r, w', evs) ->
  isReady (mgr w') = true
  ∧ entries w' = entries w
  ∧ listeners (mgr w') = listeners (mgr w)
  ∧ awaiters (mgr w') = awaiters (mgr w)
  ∧ match r with
    | Ok _ => evs = map EvTransmit (queue (mgr w)) ∧ queue (mgr w') = []
    | Throw _ =>
        (∃ n, n ≤ length (queue (mgr w))
              ∧ evs = map EvTransmit (take n (queue (mgr w))))
        ∧ queue (mgr w') = queue (mgr w)
    end.
Proof.
  unfold Internal_ready.
  destruct (idrain _ _) as [[[[] | e] w2] evs2] eqn:Hdrain;
    intros [= <- <- <-];
    destruct (Internal_forEach_send_ready_result _
                (set_mgr w (with_isReady (mgr w) true)) _ _ _ eq_refl Hdrain)
      as (Hm & He & Hev); simpl in *.
  - rewrite Hm. simpl. repeat split; auto.
  - rewrite Hm. simpl. repeat split; auto.
Qed.

(** X21. While the manager is ready, the internal [send] of a message with a
    registered channel and a prototype writes the prototype's channel over
    the message's own and hands [transmit] that very message, once; the
    message's fields and prototype, and the manager, are untouched. *)
Theorem Internal_send_ready_stamps_and_transmits w data entry o p :
  isReady (mgr w) = true ->
  entries w !! get_channel (mem w) data = Some entry ->
  objs (mem w) !! data = Some o ->
  o_proto o = Some p ->
  let o' := {| o_channel := Some (proto_channel (protos (mem w)) p);
               o_proto := Some p; o_fields := o_fields o |} in
  let w' := stamped_world w data o' in
  Internal_send transmit data w
  = (match transmit (mem w') data with Some e => Throw e | None => Ok tt end,
     w', [EvTransmit data])
  ∧ get_channel (mem w') data = proto_channel (protos (mem w)) p
  ∧ mgr w' = mgr w.
Proof.
  intros Hr Hreg Ho Hp o' w'. split; [| split].
  - unfold Internal_send, stamp. rewrite Hreg, Hr, Ho, Hp.
    subst w' o'. unfold stamped_world. simpl.
    destruct (transmit _ data); reflexivity.
  - unfold get_channel. subst w'. unfold stamped_world. simpl.
    rewrite lookup_insert_eq. reflexivity.
  - reflexivity.
Qed.


End InternalProperties.

(** * Invariants of a manager in use *)

Section Sequences.

Context {Payload IOType Validator CustomData : Type}.
Variable encode : gmap addr ProtoObj -> Obj Payload -> Res IOType.
Variable decode : Mem Payload -> IOType -> Res (Val * addr) * Mem Payload.
Variable finalize :
  Mem Payload -> addr -> Validator -> CustomData -> Res addr * Mem Payload.
Variable transmit : IOType -> option Err.
Variable intermediate_to_string : Mem Payload -> addr -> option Err.
Variable raw_to_string : IOType -> option Err.
Variable callback_run : nat -> Mem Payload -> addr -> option Err.

Implicit Types (w : World Payload Validator CustomData).
Implicit Types (r : Res unit) (evs : list (Event IOType)).
Implicit Types (c : @Call Payload IOType) (cs : list (@Call Payload IOType)).

Local Abbreviation call' :=
  (call (Validator := Validator) (CustomData := CustomData)
     encode decode finalize transmit intermediate_to_string raw_to_string callback_run).
Local Abbreviation calls' :=
  (calls (Validator := Validator) (CustomData := CustomData)
     encode decode finalize transmit intermediate_to_string raw_to_string callback_run).

Lemma callbacks_of_listeners (g g' : Manager Payload) ch :
  listeners g' = listeners g -> callbacks_of g' ch = callbacks_of g ch.
Proof. intros H. unfold callbacks_of. rewrite H. reflexivity. Qed.

Lemma call_effects c w r w' evs :
  call' c w = (r, w', evs) ->
  entries w' = entries w
  ∧ (isReady (mgr w) = true -> isReady (mgr w') = true)
  ∧ (c ≠ CallReady ->
     isReady (mgr w') = isReady (mgr w)
     ∧ queue (mgr w) `prefix_of` queue (mgr w')
     ∧ (isReady (mgr w) = false -> ∀ io, EvTransmit io ∉ evs))
  ∧ ((∀ ch, NoDup (callbacks_of (mgr w) ch)) ->
     ∀ ch, NoDup (callbacks_of (mgr w') ch)).
Proof.
  destruct c as [cls cb | cls cb | cls pred res | data | raw |]; simpl; intros Hcall.
  - assert (w' = snd (fst (listen (IOType := IOType) cls cb w))) as Hw'
      by (rewrite Hcall; reflexivity).
    assert (evs = []) as -> by (unfold listen in Hcall; congruence).
    split; [| split; [| split]].
    + rewrite Hw'. reflexivity.
    + rewrite Hw'. auto.
    + intros _. rewrite Hw'. simpl. split; [reflexivity |]. split; [reflexivity |].
      intros _ io Hin. inversion Hin.
    + intros Hnd ch. rewrite Hw', listen_callbacks_of.
      destruct (decide _); [apply set_add_NoDup |]; apply Hnd.
  - assert (w' = snd (fst (stopListening (IOType := IOType) cls cb w))) as Hw'
      by (rewrite Hcall; reflexivity).
    assert (evs = []) as ->.
    { unfold stopListening in Hcall. destruct (listeners (mgr w) !! _); congruence. }
    assert (entries w' = entries w ∧ isReady (mgr w') = isReady (mgr w)
            ∧ queue (mgr w') = queue (mgr w)) as (He & Hr & Hq).
    { rewrite Hw'. unfold stopListening.
      destruct (listeners (mgr w) !! _); repeat split. }
    split; [exact He |]. split; [congruence |]. split.
    + intros _. rewrite Hr, Hq. split; [reflexivity |]. split; [reflexivity |].
      intros _ io Hin. inversion Hin.
    + intros Hnd ch. rewrite Hw', stopListening_callbacks_of.
      destruct (decide _); [apply NoDup_filter |]; apply Hnd.
  - unfold awaitMessage in Hcall. injection Hcall as <- <- <-. simpl.
    split; [reflexivity |]. split; [auto |]. split; [| auto].
    intros _. split; [reflexivity |]. split; [reflexivity |].
    intros _ io Hin. inversion Hin.
  - destruct (send_effects _ _ _ _ _ _ _ Hcall)
      as (He & Hl & _ & Hr & _ & _ & _ & _ & Hcase).
    split; [exact He |]. split; [congruence |]. split.
    + intros _. split; [exact Hr |].
      destruct (isReady (mgr w)).
      * destruct Hcase as [-> _]. split; [reflexivity | discriminate].
      * destruct Hcase as (_ & -> & Hq). split.
        -- destruct Hq as [-> | ->]; [reflexivity | apply prefix_app_r; reflexivity].
        -- intros _ io Hin. inversion Hin.
    + intros Hnd ch. rewrite (callbacks_of_listeners _ _ ch Hl). apply Hnd.
  - destruct (onData_effects _ _ _ _ _ _ _ _ _ _ Hcall)
      as (He & Hl & Hq & Hr & _ & Hevs).
    split; [exact He |]. split; [congruence |]. split.
    + intros _. rewrite Hq. split; [exact Hr |]. split; [reflexivity |].
      intros _. exact Hevs.
    + intros Hnd ch. rewrite (callbacks_of_listeners _ _ ch Hl). apply Hnd.
  - destruct (ready_effects _ _ _ _ _ _ Hcall) as (Hr & He & Hl & _).
    split; [exact He |]. split; [intros _; exact Hr |]. split; [congruence |].
    intros Hnd ch. rewrite (callbacks_of_listeners _ _ ch Hl). apply Hnd.
Qed.

(** X23. Before [ready] nothing is transmitted.  Whatever calls other than
    [ready] are made on a manager that is not ready, and whatever user code
    does in them, the manager stays not ready, [transmit] is never called,
    and the queue only grows at its end. *)
Theorem nothing_transmitted_before_ready cs : ∀ w,
  Forall (λ c, c ≠ CallReady) cs ->
  isReady (mgr w) = false ->
  isReady (mgr (fst (calls encode decode finalize transmit intermediate_to_string raw_to_string callback_run cs w))) = false
  ∧ (∀ io, EvTransmit io ∉ snd (calls encode decode finalize transmit intermediate_to_string raw_to_string callback_run cs w))
  ∧ queue (mgr w) `prefix_of` queue (mgr (fst (calls encode decode finalize transmit intermediate_to_string raw_to_string callback_run cs w))).
Proof.
  induction cs as [| c cs IH]; intros w Hcs Hnr; simpl.
  - split; [exact Hnr |]. split; [| reflexivity]. intros io Hin. inversion Hin.
  - inversion Hcs as [| ? ? Hc Hrest]; subst.
    destruct (call' c w) as [[r w1] evs1] eqn:Hcall.
    destruct (call_effects _ _ _ _ _ Hcall) as (_ & _ & Hstep & _).
    destruct (Hstep Hc) as (Hr1 & Hq1 & Hev1).
    destruct (IH w1 Hrest) as (Hr2 & Hev2 & Hq2); [congruence |].
    destruct (calls' cs w1) as [w2 evs2]. simpl in *.
    split; [exact Hr2 |]. split.
    + intros io Hin. apply elem_of_app in Hin as [Hin | Hin].
      * exact (Hev1 Hnr io Hin).
      * exact (Hev2 io Hin).
    + etransitivity; eassumption.
Qed.

(** X24. No sequence of calls on the manager changes the registry, and none
    makes a ready manager not ready again. *)
Theorem registry_untouched_ready_kept cs : ∀ w,
  entries (fst (calls encode decode finalize transmit intermediate_to_string raw_to_string callback_run cs w)) = entries w
  ∧ (isReady (mgr w) = true -> isReady (mgr (fst (calls encode decode finalize transmit intermediate_to_string raw_to_string callback_run cs w))) = true).
Proof.
  induction cs as [| c cs IH]; intros w; simpl; [auto |].
  destruct (call' c w) as [[r w1] evs1] eqn:Hcall.
  destruct (call_effects _ _ _ _ _ Hcall) as (He & Hr & _).
  destruct (IH w1) as (He2 & Hr2).
  destruct (calls' cs w1) as [w2 evs2]. simpl in *.
  split; [congruence | auto].
Qed.

(** X25. The callbacks of a channel form a set throughout: if no channel has
    a callback twice at the start, none has after any sequence of calls. *)
Theorem listener_sets_stay_sets cs : ∀ w,
  (∀ ch, NoDup (callbacks_of (mgr w) ch)) ->
  ∀ ch, NoDup (callbacks_of (mgr (fst (calls encode decode finalize transmit intermediate_to_string raw_to_string callback_run cs w))) ch).
Proof.
  induction cs as [| c cs IH]; intros w Hnd; simpl; [exact Hnd |].
  destruct (call' c w) as [[r w1] evs1] eqn:Hcall.
  destruct (call_effects _ _ _ _ _ Hcall) as (_ & _ & _ & Hstep).
  specialize (IH w1 (Hstep Hnd)).
  destruct (calls' cs w1) as [w2 evs2]. exact IH.
Qed.

End Sequences.

(** * The concrete manager at work *)

Import Fixture.

Example registered_channels :
  Sendable_channel (protos (mem world_registered)) Ping = Some "ping"
  ∧ Sendable_channel (protos (mem world_registered)) Pong = Some "pong".
Proof. split; vm_compute; reflexivity. Qed.

(** Awaiter precedence: the pong of value 5 goes to the awaiter and not to the
    listener; the next pong goes to the listener. *)
Example awaiter_precedence_scenario :
  let '(r1, w1, evs1) := onData dec fin show_intermediate show_raw cb_run (Some (Some "pong", num 5)) world_listening in
  let '(r2, w2, evs2) := onData dec fin show_intermediate show_raw cb_run (Some (Some "pong", num 7)) w1 in
  r1 = Ok tt ∧ evs1 = [EvResolve 1 0] ∧ awaiters (mgr w1) = []
  ∧ r2 = Ok tt ∧ evs2 = [EvCallback 7 1].
Proof. vm_compute. repeat split. Qed.

(** Queue, then drain: nothing is transmitted before [ready]. *)
Example ping_scenario :
  let '(r1, w1, evs1) := send enc tx 0 world_ping_pong in
  let '(r2, w2, evs2) := ready enc tx w1 in
  r1 = Ok tt ∧ evs1 = [] ∧ queue (mgr w1) = [0]
  ∧ r2 = Ok tt ∧ evs2 = [EvTransmit (Some (Some "ping", num 1))] ∧ queue (mgr w2) = [].
Proof. vm_compute. repeat split. Qed.

(** ** The theorems at concrete inputs *)

Lemma notifyListeners_awaiter_then_listeners_witness :
  notifyListeners (IOType := Text) cb_run 0 world_dispatch
  = (Ok tt,
     set_mgr world_dispatch
       (with_awaiters (mgr world_dispatch) ([awaiter_ping] ++ [awaiter_pong2])),
     [EvResolve 1 0])
  ∧ notifyListeners (IOType := Text) cb_run 1 world_dispatch
    = (Ok tt, world_dispatch, [EvCallback 7 1]).
Proof.
  split.
  - apply (proj1 (notifyListeners_awaiter_then_listeners cb_run world_dispatch 0)
             [awaiter_ping] awaiter_pong1 [awaiter_pong2]).
    + reflexivity.
    + constructor; [| constructor]. left. vm_compute. discriminate.
    + split; reflexivity.
  - apply (proj2 (notifyListeners_awaiter_then_listeners cb_run world_dispatch 1)).
    + repeat constructor; first [ left; vm_compute; discriminate | right; reflexivity ].
    + repeat constructor.
Defined.

Lemma send_unregistered_throws_witness :
  entries world_stranger !! get_channel (mem world_stranger) 0 = None
  ∧ send enc tx 0 world_stranger = (Throw ErrNotRegistered, world_stranger, [])
  ∧ send enc tx 0 (made_ready world_stranger)
    = (Throw ErrNotRegistered, made_ready world_stranger, []).
Proof.
  split; [reflexivity |].
  split; apply send_unregistered_throws; reflexivity.
Defined.

Lemma send_ready_stamps_channel_witness :
  get_channel (mem world_mistagged) 0 = Some "ping"
  ∧ ∃ o',
      o_channel o' = Some (Sendable_channel (protos (mem world_mistagged)) Pong)
      ∧ o_proto o' = o_proto (tagged "ping" Pong 5%Z)
      ∧ o_fields o' = o_fields (tagged "ping" Pong 5%Z)
      ∧ send enc tx 0 world_mistagged
        = match enc (protos (mem world_mistagged)) o' with
          | Ok encoded => (Ok tt, stamped_world world_mistagged 0 o', [EvTransmit encoded])
          | Throw e => (Throw (ErrEncode e), stamped_world world_mistagged 0 o', [])
          end
      ∧ get_channel (mem (stamped_world world_mistagged 0 o')) 0
        = Sendable_channel (protos (mem world_mistagged)) Pong.
Proof.
  split; [reflexivity |].
  apply (send_ready_stamps_channel enc tx world_mistagged 0 (Ping, any_value, tt)
           (tagged "ping" Pong 5%Z) 2 Pong); reflexivity.
Defined.

Lemma queued_sends_transmitted_in_order_witness :
  ∃ w1 w2,
    forEach_send enc tx [0; 1] world_ping_pong = (Ok tt, w1, [])
    ∧ queue (mgr w1) = [0; 1]
    ∧ ready enc tx w1
      = (Ok tt, w2, map EvTransmit [Some (Some "ping", num 1); Some (Some "pong", num 5)])
    ∧ queue (mgr w2) = []
    ∧ isReady (mgr w2) = true.
Proof.
  apply (queued_sends_transmitted_in_order enc tx world_ping_pong).
  - reflexivity.
  - reflexivity.
  - repeat constructor; concrete_message.
Defined.

(** C2 as stated fails.  The registry check reads the tag the caller left on
    the object and the stamp replaces it afterwards: a plain object tagged
    "ping" is sent twice and queued twice, its channel being registered; the
    drain transmits it once, stamping it with the [undefined] its prototype
    has for a channel, and rejects it when it meets it again.  [ready] throws
    and the queue is not emptied. *)
Lemma queued_twice_stale_tag_counterexample :
  isReady (mgr world_plain) = false
  ∧ queue (mgr world_plain) = []
  ∧ Forall (registered world_plain) [0; 0]
  ∧ ∃ w1 w2,
      forEach_send enc tx [0; 0] world_plain = (Ok tt, w1, [])
      ∧ ready enc tx w1 = (Throw ErrNotRegistered, w2, [EvTransmit (Some (None, num 1))])
      ∧ queue (mgr w2) = [0; 0].
Proof.
  split; [reflexivity |]. split; [reflexivity |]. split.
  - repeat constructor; vm_compute; eexists; reflexivity.
  - eexists _, _. split; [vm_compute; reflexivity |].
    split; vm_compute; reflexivity.
Qed.

(** A message [encode] refuses interrupts the drain as well. *)
Example unencodable_interrupts_drain :
  ∃ w1 w2,
    forEach_send enc tx [0; 1; 2] world_unencodable = (Ok tt, w1, [])
    ∧ ready enc tx w1
      = (Throw (ErrEncode (ErrUser "not serialisable")), w2,
         [EvTransmit (Some (Some "ping", num 1))])
    ∧ queue (mgr w2) = [0; 1; 2].
Proof.
  eexists _, _. split; [vm_compute; reflexivity |].
  split; vm_compute; reflexivity.
Qed.

Lemma ready_again_is_noop_witness :
  ready enc tx (made_ready world_ping_pong) = (Ok tt, made_ready world_ping_pong, [])
  ∧ ∃ w1 evs,
      ready enc tx world_ping_pong_queued = (Ok tt, w1, evs)
      ∧ ready enc tx w1 = (Ok tt, w1, []).
Proof.
  split.
  - apply (proj1 (ready_again_is_noop enc tx (made_ready world_ping_pong))); reflexivity.
  - eexists _, _. split; [vm_compute; reflexivity |].
    apply (proj2 (ready_again_is_noop enc tx world_ping_pong_queued) _
             (map EvTransmit [Some (Some "ping", num 1); Some (Some "pong", num 5)])).
    vm_compute. reflexivity.
Defined.

(** C7 as stated fails: after a drain that [encode] interrupted, the manager
    is ready and its queue is intact, and a second [ready] transmits the first
    message once more. *)
Lemma ready_again_after_failed_drain_counterexample :
  let w1 := made_ready world_unencodable_queued in
  isReady (mgr w1) = true
  ∧ snd (ready enc tx world_unencodable_queued) = [EvTransmit (Some (Some "ping", num 1))]
  ∧ ready enc tx w1
    = (Throw (ErrEncode (ErrUser "not serialisable")), w1,
       [EvTransmit (Some (Some "ping", num 1))]).
Proof.
  vm_compute. repeat split.
Qed.

Lemma ready_encode_failure_propagates_witness :
  ∃ w',
    ready enc tx world_unencodable_queued
    = (Throw (ErrEncode (ErrUser "not serialisable")), w',
       map EvTransmit [Some (Some "ping", num 1)])
    ∧ queue (mgr w') = [0] ++ 1 :: [2]
    ∧ isReady (mgr w') = true.
Proof.
  apply (ready_encode_failure_propagates enc tx world_unencodable_queued [0] 1 [2]).
  - reflexivity.
  - repeat constructor; concrete_message.
  - concrete_message.
Defined.

(** A pong the validator rejects is dropped with a warning. *)
Example rejected_pong_dropped :
  let raw : Text := Some (Some "pong", num 500) in
  onData dec fin show_intermediate show_raw cb_run raw world_listening
  = (Ok tt, set_mem world_listening (snd (dec (mem world_listening) raw)),
     [EvWarn (WarnFinalizeFailed ErrTypeCheck)]).
Proof.
  apply (onData_drops_silently dec fin show_intermediate show_raw cb_run
           world_listening _ _
           [show_intermediate (snd (dec (mem world_listening) (Some (Some "pong", num 500)))) 0;
            show_raw (Some (Some "pong", num 500))]).
  - apply (drop_finalize_threw dec fin show_intermediate show_raw world_listening _ "pong" 0
             (snd (dec (mem world_listening) (Some (Some "pong", num 500))))
             Pong value_below_100 tt).
    + reflexivity.
    + reflexivity.
    + apply (JSON_finalize_rejects (Payload := Fields)). reflexivity.
  - repeat constructor.
Qed.

(** C3, at the JSON manager.  The text [{"toString": 1}] decodes to an object
    without a [channel], and the text [{"channel": "nobody", "toString": 1}]
    to one whose channel is not registered.  Either message is to be dropped,
    but building the warning converts the decoded object to a string, which
    throws a [TypeError]: [onData] does not return normally and nothing is
    logged. *)
Theorem onData_drop_throws_on_unprintable :
  let fields := {| value := 1; own_toString := true |} in
  let no_channel : Text := Some (None, fields) in
  let stranger : Text := Some (Some "nobody", fields) in
  let m1 := snd (dec (mem world_listening) no_channel) in
  let m1' := snd (dec (mem world_listening) stranger) in
  drops dec fin show_intermediate show_raw world_listening no_channel
    WarnChannelNotString [show_intermediate m1 0; show_raw no_channel] m1
  ∧ show_intermediate m1 0 = Some ErrTypeError
  ∧ onData dec fin show_intermediate show_raw cb_run no_channel world_listening
    = (Throw ErrTypeError, set_mem world_listening m1, [])
  ∧ drops dec fin show_intermediate show_raw world_listening stranger
      (WarnNotInRegistry "nobody") [show_intermediate m1' 0; show_raw stranger] m1'
  ∧ show_intermediate m1' 0 = Some ErrTypeError
  ∧ onData dec fin show_intermediate show_raw cb_run stranger world_listening
    = (Throw ErrTypeError, set_mem world_listening m1', []).
Proof.
  intros fields no_channel stranger m1 m1'.
  split; [| split; [reflexivity |]; split; [reflexivity |];
            split; [| split; reflexivity]].
  - apply (drop_channel_not_string dec fin show_intermediate show_raw
             world_listening no_channel VUndefined 0); reflexivity.
  - apply (drop_not_in_registry dec fin show_intermediate show_raw
             world_listening stranger "nobody" 0); reflexivity.
Qed.

Lemma MakeSendable_channel_and_entry_witness :
  ∃ w',
    MakeSendable (IOType := Text) "ping" any_value tt Ping world0 = (Ok tt, w', [])
    ∧ entries w' !! Some "ping" = Some (Ping, any_value, tt)
    ∧ Sendable_channel (protos (mem w')) Ping = Some "ping"
    ∧ ∀ a fields,
        get_channel {| protos := protos (mem w');
                       objs := <[a := construct Ping fields]> (objs (mem w')) |} a
        = Some "ping".
Proof.
  apply (MakeSendable_channel_and_entry world0 "ping" any_value tt Ping).
  vm_compute. eexists. reflexivity.
Defined.

Lemma onData_dispatch_exception_propagates_witness :
  let raw : Text := Some (Some "pong", num 5) in
  let m2 := snd (dec (mem world_registered) raw) in
  onData dec fin show_intermediate show_raw cb_run raw world_throwing_awaiter
  = (Throw (ErrUser "predicate failed"),
     set_mem world_throwing_awaiter (setPrototypeOf m2 0 (cls_prototype Pong)), [])
  ∧ onData dec fin show_intermediate show_raw cb_run raw world_throwing_listener
    = (Throw (ErrUser "listener failed"),
       set_mem world_throwing_listener (setPrototypeOf m2 0 (cls_prototype Pong)),
       map (λ c, EvCallback c 0) ([7] ++ [13])).
Proof.
  intros raw m2. split.
  - apply (proj1 (onData_dispatch_exception_propagates dec fin show_intermediate show_raw cb_run
                    world_throwing_awaiter raw 0 Pong 0 m2 ltac:(pong_received))
             [] {| channel := Some "pong"; predicate := throwing_predicate; resolve := 1 |}
             [] (ErrUser "predicate failed"));
      first [ reflexivity | constructor ].
  - apply (proj2 (onData_dispatch_exception_propagates dec fin show_intermediate show_raw cb_run
                    world_throwing_listener raw 0 Pong 0 m2 ltac:(pong_received))
             [7] 13 []).
    + constructor.
    + reflexivity.
    + repeat constructor.
    + reflexivity.
Defined.

(** C5, at a manager whose [finalize] builds the typed value as a new object:
    the pong is received, the prototype of [Pong] is put on the intermediate
    object 0, and the listener is called with object 1, the one [finalize]
    returned, whose prototype is still [Object.prototype]. *)
Theorem onData_retags_intermediate_not_decoded :
  ∃ w',
    onData dec fin_convert show_intermediate show_raw cb_run (Some (Some "pong", num 5)) world_one_listener
    = (Ok tt, w', [EvCallback 7 1])
    ∧ instance_of (mem w') 0 Pong
    ∧ ¬ instance_of (mem w') 1 Pong
    ∧ objs (mem w') !! 1 ≫= o_proto = Some Object_prototype.
Proof.
  eexists. split; [vm_compute; reflexivity |].
  split; [eexists; split; vm_compute; reflexivity |].
  split; [| vm_compute; reflexivity].
  intros (o & Ho & Hp). vm_compute in Ho. injection Ho as <-. discriminate.
Qed.

(** ** Listeners and awaiters at the concrete manager *)

Lemma listen_adds_callback_witness :
  let w' := snd (fst (listen (IOType := Text) Pong 8 world_one_listener)) in
  8 ∈ callbacks_of (mgr w') (Some "pong")
  ∧ [7] `prefix_of` callbacks_of (mgr w') (Some "pong")
  ∧ NoDup (callbacks_of (mgr w') (Some "pong"))
  ∧ callbacks_of (mgr w') (Some "ping") = [].
Proof.
  intros w'.
  destruct (listen_adds_callback (IOType := Text) world_one_listener Pong 8)
    as (Hin & Hpre & Hnd & Hother).
  split; [exact Hin |]. split; [exact Hpre |]. split.
  - apply Hnd. vm_compute. apply NoDup_singleton.
  - apply (Hother (Some "ping")). vm_compute. discriminate.
Defined.

Lemma stopListening_removes_callback_witness :
  let w' := snd (fst (stopListening (IOType := Text) Pong 7 world_throwing_listener)) in
  (7 ∉ callbacks_of (mgr w') (Some "pong"))
  ∧ (13 ∈ callbacks_of (mgr w') (Some "pong")
     ↔ 13 ∈ callbacks_of (mgr world_throwing_listener) (Some "pong"))
  ∧ NoDup (callbacks_of (mgr w') (Some "pong"))
  ∧ stopListening (IOType := Text) Ping 7 world_throwing_listener
    = (Ok tt, world_throwing_listener, []).
Proof.
  intros w'.
  destruct (stopListening_removes_callback (IOType := Text) world_throwing_listener Pong 7)
    as (Hout & Hkeep & Hnd & _).
  destruct (stopListening_removes_callback (IOType := Text) world_throwing_listener Ping 7)
    as (_ & _ & _ & Hnone).
  split; [exact Hout |]. split; [| split].
  - apply (Hkeep (Some "pong") 13). lia.
  - apply Hnd. vm_compute. apply NoDup_cons. split; [| apply NoDup_singleton].
    intros H. apply list_elem_of_singleton in H. discriminate.
  - apply Hnone. reflexivity.
Defined.

Lemma listen_stopListening_restores_witness :
  (8 ∉ callbacks_of (mgr world_one_listener)
         (Sendable_channel (protos (mem world_one_listener)) Pong))
  ∧ callbacks_of
      (mgr (snd (fst (stopListening (IOType := Text) Pong 8
                        (snd (fst (listen (IOType := Text) Pong 8 world_one_listener)))))))
      (Some "pong")
    = callbacks_of (mgr world_one_listener) (Some "pong").
Proof.
  assert (8 ∉ callbacks_of (mgr world_one_listener)
                (Sendable_channel (protos (mem world_one_listener)) Pong)) as Hnot.
  { vm_compute. intros H. apply list_elem_of_singleton in H. discriminate. }
  split; [exact Hnot |].
  exact (listen_stopListening_restores (IOType := Text) world_one_listener Pong 8
           (Some "pong") Hnot).
Defined.


Lemma stopListening_then_never_called_witness :
  EvCallback (IOType := Text) 7 1
  ∉ snd (notifyListeners cb_run 1
           (snd (fst (stopListening (IOType := Text) Pong 7 world_dispatch)))).
Proof.
  apply (stopListening_then_never_called (IOType := Text) cb_run world_dispatch Pong 7 1).
  reflexivity.
Defined.

Lemma awaitMessage_consumed_by_first_match_witness :
  notifyListeners (IOType := Text) cb_run 1
    (snd (fst (awaitMessage (IOType := Text) Pong (value_is 7) 9 world_dispatch)))
  = (Ok tt, world_dispatch, [EvResolve 9 1]).
Proof.
  apply (awaitMessage_consumed_by_first_match cb_run world_dispatch Pong (value_is 7) 9 1).
  - repeat constructor; first [ left; vm_compute; discriminate | right; reflexivity ].
  - reflexivity.
  - reflexivity.
Defined.

Lemma listen_then_called_once_witness :
  ∃ evs,
    notifyListeners (IOType := Text) cb_run 1
      (snd (fst (listen (IOType := Text) Pong 7 world_dispatch)))
    = (Ok tt, snd (fst (listen (IOType := Text) Pong 7 world_dispatch)), evs)
    ∧ EvCallback 7 1 ∈ evs
    ∧ NoDup evs.
Proof.
  apply (listen_then_called_once (IOType := Text) cb_run world_dispatch Pong 7 1).
  - vm_compute. apply NoDup_singleton.
  - reflexivity.
  - repeat constructor; first [ left; vm_compute; discriminate | right; reflexivity ].
  - reflexivity.
  - repeat constructor.
Defined.

(** ** Frames and drains at the concrete manager *)

Lemma send_frame_witness :
  let x := send enc tx 0 world_mistagged in
  entries (snd (fst x)) = entries world_mistagged
  ∧ o_fields <$> objs (mem (snd (fst x))) !! 0 = Some (num 5)
  ∧ queue (mgr (snd (fst x))) = []
  ∧ snd x = [EvTransmit (Some (Some "pong", num 5))].
Proof.
  intros x.
  destruct (send_frame enc tx world_mistagged 0 (fst (fst x)) (snd (fst x)) (snd x))
    as (He & _ & _ & _ & _ & _ & _ & Hf & Hq & _).
  { vm_compute. reflexivity. }
  split; [exact He |]. split; [exact Hf |]. split; [exact Hq |]. reflexivity.
Defined.


Lemma ready_outcome_witness :
  let x := ready enc tx world_unencodable_queued in
  isReady (mgr (snd (fst x))) = true
  ∧ queue (mgr (snd (fst x))) = [0; 1; 2]
  ∧ length (snd x) ≤ 3.
Proof.
  intros x.
  destruct (ready_outcome enc tx world_unencodable_queued
              (Throw (ErrEncode (ErrUser "not serialisable"))) (snd (fst x)) (snd x))
    as (Hr & _ & _ & _ & _ & Hq & Hlen).
  { vm_compute. reflexivity. }
  split; [exact Hr |]. split; [exact Hq | exact Hlen].
Defined.

Lemma queue_then_ready_is_ready_then_send_witness :
  let queued := ready enc tx (snd (fst (forEach_send enc tx [0; 1] world_ping_pong))) in
  let direct := forEach_send enc tx [0; 1] (snd (fst (ready enc tx world_ping_pong))) in
  fst (fst queued) = fst (fst direct)
  ∧ snd queued = snd direct
  ∧ mem (snd (fst queued)) = mem (snd (fst direct))
  ∧ (fst (fst queued) = Ok tt -> snd (fst queued) = snd (fst direct)).
Proof.
  apply (queue_then_ready_is_ready_then_send enc tx world_ping_pong [0; 1]).
  - reflexivity.
  - reflexivity.
  - repeat constructor; vm_compute; eexists; reflexivity.
Defined.

(** ** Registration at the concrete manager *)

Lemma MakeSendable_keeps_other_classes_witness :
  let w := snd (fst (MakeSendable (IOType := Text) "ping" any_value tt Ping world0)) in
  let w' := snd (fst (MakeSendable (IOType := Text) "pong" value_below_100 tt Pong w)) in
  Sendable_channel (protos (mem w')) Ping = Some "ping"
  ∧ entries w' !! Some "ping" = entries w !! Some "ping".
Proof.
  intros w w'.
  destruct (MakeSendable_keeps_other_classes (IOType := Text) w "pong" value_below_100 tt
              Pong Ping
              {| p_channel := Some (Some "ping"); p_parent := Some Object_prototype |}
              (Some "ping"))
    as (Hch & Hent & _).
  - vm_compute. eexists. reflexivity.
  - reflexivity.
  - reflexivity.
  - vm_compute. discriminate.
  - split; [exact Hch |]. apply Hent. discriminate.
Defined.

Lemma MakeSendable_same_channel_last_wins_witness :
  let w1 := snd (fst (MakeSendable (IOType := Text) "ball" any_value tt Ping world0)) in
  let w2 := snd (fst (MakeSendable (IOType := Text) "ball" value_below_100 tt Pong w1)) in
  entries w2 !! Some "ball" = Some (Pong, value_below_100, tt)
  ∧ Sendable_channel (protos (mem w2)) Ping = Some "ball"
  ∧ Sendable_channel (protos (mem w2)) Pong = Some "ball".
Proof.
  apply (MakeSendable_same_channel_last_wins (IOType := Text) world0 "ball"
           any_value tt value_below_100 tt Ping Pong).
  - vm_compute. eexists. reflexivity.
  - vm_compute. eexists. reflexivity.
  - vm_compute. discriminate.
Defined.

Lemma MakeSendable_again_keeps_old_entry_witness :
  let w1 := snd (fst (MakeSendable (IOType := Text) "ping" any_value tt Ping world0)) in
  let w2 := snd (fst (MakeSendable (IOType := Text) "pong" value_below_100 tt Ping w1)) in
  Sendable_channel (protos (mem w2)) Ping = Some "pong"
  ∧ entries w2 !! Some "pong" = Some (Ping, value_below_100, tt)
  ∧ entries w2 !! Some "ping" = Some (Ping, any_value, tt).
Proof.
  apply (MakeSendable_again_keeps_old_entry (IOType := Text) world0 "ping" "pong"
           any_value tt value_below_100 tt Ping).
  - vm_compute. eexists. reflexivity.
  - discriminate.
Defined.

Lemma unregistered_subclass_inherits_channel_witness :
  Sendable_channel protos_with_Reply Reply = Some "pong"
  ∧ get_channel {| protos := protos_with_Reply;
                   objs := <[0 := construct Reply (num 5)]> ∅ |} 0
    = Some "pong".
Proof.
  apply (unregistered_subclass_inherits_channel protos_with_Reply Reply Pong
           {| p_channel := Some (Some "pong"); p_parent := Some Object_prototype |}
           (Some "pong") 0 (num 5) ∅); reflexivity.
Defined.

(** ** The JSON manager at concrete texts *)

Lemma JSON_onData_dispatches_parsed_object_witness :
  let w := world_one_listener in
  let m1 := snd (parse_text (mem w) "pong 5") in
  let w1 := set_mem w (setPrototypeOf m1 0 (cls_prototype Pong)) in
  onData (JSONListenerManager_decode parse_text) JSONListenerManager_finalize
    show_intermediate (λ _, None) cb_run "pong 5" w
  = notifyListeners cb_run 0 w1
  ∧ objs (mem w1) !! 0
    = Some {| o_channel := Some (Some "pong");
              o_proto := Some (cls_prototype Pong);
              o_fields := o_fields (tagged "pong" Pong 5) |}
  ∧ get_channel (mem w1) 0 = Some "pong".
Proof.
  intros w m1 w1.
  apply (JSON_onData_dispatches_parsed_object parse_text show_intermediate (λ _, None)
           cb_run w "pong 5" 0 m1
           {| o_channel := Some (Some "pong"); o_proto := Some Object_prototype;
              o_fields := num 5 |}
           "pong" Pong value_below_100 tt); reflexivity.
Defined.

Lemma JSON_onData_rejected_not_dispatched_witness :
  let w := world_one_listener in
  ∃ r evs,
    onData (JSONListenerManager_decode parse_text) JSONListenerManager_finalize
      show_intermediate (λ _, None) cb_run "pong 500" w
    = (r, set_mem w (snd (parse_text (mem w) "pong 500")), evs)
    ∧ (evs = [] ∨ evs = [EvWarn (WarnFinalizeFailed ErrTypeCheck)]).
Proof.
  intros w.
  apply (JSON_onData_rejected_not_dispatched parse_text show_intermediate (λ _, None)
           cb_run w "pong 500" 0 (snd (parse_text (mem w) "pong 500"))
           {| o_channel := Some (Some "pong"); o_proto := Some Object_prototype;
              o_fields := num 500 |}
           "pong" Pong value_below_100 tt); reflexivity.
Defined.

Lemma JSON_listen_then_onData_calls_back_witness :
  ∃ w' evs,
    onData (JSONListenerManager_decode parse_text) JSONListenerManager_finalize
      show_intermediate (λ _, None) cb_run "pong 5"
      (snd (fst (listen (IOType := string) Pong 7 world_registered)))
    = (Ok tt, w', evs)
    ∧ EvCallback 7 0 ∈ evs.
Proof.
  apply (JSON_listen_then_onData_calls_back parse_text show_intermediate (λ _, None)
           cb_run world_registered Pong 7 "pong 5" 0
           (snd (parse_text (mem world_registered) "pong 5"))
           {| o_channel := Some (Some "pong"); o_proto := Some Object_prototype;
              o_fields := num 5 |}
           "pong" Pong value_below_100 tt); try reflexivity.
  split; [reflexivity | constructor].
Defined.

(** ** The internal manager at concrete messages *)

Lemma Internal_ready_transmits_queue_in_order_witness :
  let sent := snd (fst (Internal_forEach_send tx_object [0; 1] world_ping_pong)) in
  let x := Internal_ready tx_object sent in
  isReady (mgr (snd (fst x))) = true
  ∧ snd x = map EvTransmit [0; 1]
  ∧ queue (mgr (snd (fst x))) = [].
Proof.
  intros sent x.
  destruct (Internal_ready_transmits_queue_in_order tx_object sent
              (Ok tt) (snd (fst x)) (snd x))
    as (Hr & _ & _ & _ & Hev & Hq).
  { vm_compute. reflexivity. }
  split; [exact Hr |]. split; [exact Hev | exact Hq].
Defined.

Lemma Internal_send_ready_stamps_and_transmits_witness :
  let o' := {| o_channel := Some (proto_channel (protos (mem world_mistagged)) 2);
               o_proto := Some 2; o_fields := num 5 |} in
  let w' := stamped_world world_mistagged 0 o' in
  Internal_send tx_object 0 world_mistagged
  = (match tx_object (mem w') 0 with Some e => Throw e | None => Ok tt end,
     w', [EvTransmit 0])
  ∧ get_channel (mem w') 0 = proto_channel (protos (mem world_mistagged)) 2
  ∧ mgr w' = mgr world_mistagged.
Proof.
  apply (Internal_send_ready_stamps_and_transmits tx_object world_mistagged 0
           (Ping, any_value, tt) (tagged "ping" Pong 5) 2); reflexivity.
Defined.


(** ** Sequences of calls at the concrete manager *)

Lemma nothing_transmitted_before_ready_witness :
  let cs := [CallSend 0; CallListen Pong 7;
             CallOnData (Some (Some "pong", num 5)); CallSend 1] in
  let x := calls enc dec fin tx show_intermediate show_raw cb_run cs world_ping_pong in
  isReady (mgr (fst x)) = false
  ∧ (∀ io, EvTransmit io ∉ snd x)
  ∧ queue (mgr world_ping_pong) `prefix_of` queue (mgr (fst x)).
Proof.
  apply (nothing_transmitted_before_ready enc dec fin tx show_intermediate show_raw cb_run).
  - repeat constructor; discriminate.
  - reflexivity.
Defined.

Lemma registry_untouched_ready_kept_witness :
  let cs := [CallSend 0; CallReady; CallOnData None; CallSend 1] in
  let x := calls enc dec fin tx show_intermediate show_raw cb_run cs
             (made_ready world_ping_pong) in
  entries (fst x) = entries (made_ready world_ping_pong)
  ∧ isReady (mgr (fst x)) = true.
Proof.
  intros cs x.
  destruct (registry_untouched_ready_kept enc dec fin tx show_intermediate show_raw cb_run
              cs (made_ready world_ping_pong)) as (He & Hr).
  split; [exact He |]. apply Hr. reflexivity.
Defined.

Lemma listener_sets_stay_sets_witness :
  NoDup (callbacks_of
           (mgr (fst (calls enc dec fin tx show_intermediate show_raw cb_run
                        [CallListen Pong 7; CallListen Pong 8; CallListen Pong 7;
                         CallStopListening Pong 8; CallReady]
                        world_registered)))
           (Some "pong")).
Proof.
  apply (listener_sets_stay_sets enc dec fin tx show_intermediate show_raw cb_run).
  intros ch. unfold callbacks_of.
  change (listeners (mgr world_registered)) with (∅ : gmap (option string) (list nat)).
  rewrite lookup_empty. apply NoDup_nil_2.
Defined.
